(** * envguard: schema-driven validation of environment variables

    A shallow embedding of [validate.ts] (with the interfaces of
    [types.ts]), of [loadSchema.ts] and of the argument parser and the
    [check] command of [cli.ts], and the theorems that relate them to the
    written specification of the validator.

    A schema is the list of its own enumerable entries as
    [Object.entries] yields them. The validator is embedded twice at the
    level of values. The first embedding takes every property read at
    its declared type: an environment is a
    [Record<string, string | undefined>] and [env[key]] is the own
    property or [undefined]. The second, in [Proto], follows a read that
    finds no own property on to [Object.prototype], as the program does
    for an object literal and for [process.env]; it is the one to use for
    what a read yields, and the two coincide on every schema none of
    whose keys names a member of [Object.prototype]
    ([Proto_validateEnv_ordinary]). A third embedding, in [Heap], puts
    the objects behind references. *)

From Stdlib Require Import Strings.String Strings.Ascii DecimalString.
From stdpp Require Import base option list strings gmap fin_maps.

Open Scope string_scope.
Open Scope list_scope.

Set Warnings "-clear-no-such-hyp".
Set Warnings "-register-all".

(** ** JavaScript primitives used by the validator *)

Module JS.

(** A [Record<string, string | undefined>]: a property may be missing,
    or present and hold [undefined] ([None]). *)
Abbreviation record := (gmap string (option string)).

(** [o[key]] at the declared type: a missing property and one holding
    [undefined] both read as [undefined]. [Proto.get] is the read with
    the prototype chain. *)
Definition get (o : record) (key : string) : option string :=
  o !! key ≫= id.

(** [o[key] = v] for a data property; [Proto.setValue] has the case of
    [__proto__]. *)
Definition set (o : record) (key : string) (v : option string) : record :=
  <[key := v]> o.

(** [arr.includes(x)] on a [string[]] *)
Definition includes (arr : list string) (x : string) : bool :=
  bool_decide (x ∈ arr).

(** [arr.join(sep)] on a [string[]] *)
Fixpoint join (sep : string) (arr : list string) : string :=
  match arr with
  | [] => ""
  | [x] => x
  | x :: rest => x +:+ sep +:+ join sep rest
  end.

(** [`${n}`] for a non-negative integer *)
Definition string_of_nat (n : nat) : string :=
  NilZero.string_of_uint (Nat.to_uint n).

Definition dquote : string := String "034" "".
Definition newline : string := String "010" "".
Definition esc : string := String "027" "".

End JS.

(** ** types.ts *)

Module EnvVarSchema.
Record t := mk {
  required : option bool;
  description : option string;
  example : option string;
  default : option string;
  allowed : option (list string)
}.
End EnvVarSchema.

(** [Object.entries(schema)]: own keys, pairwise distinct, in property
    order. *)
Abbreviation EnvSchema := (list (string * EnvVarSchema.t)).

Module ValidationError.
Record t := mk {
  variable : string;
  message : string;
  description : option string;
  expected : option (list string)
}.
End ValidationError.

Module ValidationResult.
Record t := mk {
  valid : bool;
  errors : list ValidationError.t;
  values : JS.record
}.
End ValidationResult.

Module ValidateOptions.
Record t := mk {
  env : option JS.record;
  throwOnError : option bool
}.
(** [{}] *)
Definition empty : t := mk None None.
(** [{ ...options, throwOnError: b }] *)
Definition with_throwOnError (options : t) (b : bool) : t :=
  mk (env options) (Some b).
End ValidateOptions.

#[global] Instance EnvVarSchema_eq_dec : EqDecision EnvVarSchema.t.
Proof. solve_decision. Defined.
#[global] Instance ValidationError_eq_dec : EqDecision ValidationError.t.
Proof. solve_decision. Defined.

(** ** Effects: [console.error] and [throw new Error(...)] *)

Inductive completion (A : Type) :=
  | Return (a : A)
  | Throw (msg : string).
Arguments Return {A} a.
Arguments Throw {A} msg.

(** A computation yields the lines it wrote with [console.error], in
    order, and how it completed. *)
Definition Eff (A : Type) : Type := list string * completion A.

Definition ret {A} (a : A) : Eff A := ([], Return a).
Definition throw_error {A} (msg : string) : Eff A := ([], Throw msg).
Definition console_error (msg : string) : Eff unit := ([msg], Return tt).
Definition bind {A B} (m : Eff A) (k : A → Eff B) : Eff B :=
  match m with
  | (out, Return a) => let '(out', c) := k a in (out ++ out', c)
  | (out, Throw msg) => (out, Throw msg)
  end.

#[global] Instance Eff_ret : MRet Eff := @ret.
#[global] Instance Eff_bind : MBind Eff := λ A B k m, bind m k.

(** ** validate.ts *)

Module colors.
Definition red : string := JS.esc +:+ "[31m".
Definition yellow : string := JS.esc +:+ "[33m".
Definition cyan : string := JS.esc +:+ "[36m".
Definition gray : string := JS.esc +:+ "[90m".
Definition reset : string := JS.esc +:+ "[0m".
Definition bold : string := JS.esc +:+ "[1m".
End colors.

(** The lines pushed for one error in the loop of [formatErrors]. *)
Definition formatError (error : ValidationError.t) : list string :=
  [colors.red +:+ "❌ " +:+ ValidationError.message error +:+ colors.reset]
  ++ match ValidationError.description error with
     | Some d =>
         if bool_decide (d = "") then []
         else [colors.cyan +:+ "ℹ️  " +:+ d +:+ colors.reset]
     | None => []
     end
  ++ match ValidationError.expected error with
     | Some expected =>
         if bool_decide (0 < length expected)
         then [colors.gray +:+ "   Allowed values: "
               +:+ JS.join ", " expected +:+ colors.reset]
         else []
     | None => []
     end
  ++ [""].

Definition formatErrors (errors : list ValidationError.t) : string :=
  let lines :=
    [""; colors.red +:+ colors.bold +:+ "❌ Environment validation failed"
           +:+ colors.reset; ""]
    ++ concat (map formatError errors) in
  JS.join JS.newline lines.

Definition isRequired (config : EnvVarSchema.t) : bool :=
  bool_decide (EnvVarSchema.required config = Some true).

Definition hasDefault (config : EnvVarSchema.t) : bool :=
  bool_decide (EnvVarSchema.default config ≠ None).

(** [value !== undefined && value !== ""] *)
Definition hasValue (value : option string) : bool :=
  match value with
  | Some v => bool_decide (v ≠ "")
  | None => false
  end.

Definition effectiveValue (value : option string) (config : EnvVarSchema.t)
    : option string :=
  if hasValue value then value else EnvVarSchema.default config.

Definition missingError (key : string) (config : EnvVarSchema.t)
    : ValidationError.t :=
  ValidationError.mk key
    ("Missing environment variable: " +:+ key)
    (EnvVarSchema.description config)
    (EnvVarSchema.allowed config).

Definition invalidError (key : string) (config : EnvVarSchema.t)
    (effective : string) : ValidationError.t :=
  ValidationError.mk key
    ("Invalid value for " +:+ key +:+ ": " +:+ JS.dquote +:+ effective
     +:+ JS.dquote)
    (EnvVarSchema.description config)
    (EnvVarSchema.allowed config).

(** The errors pushed by one iteration of the loop over
    [Object.entries(schema)]. *)
Definition checkEntry (value : option string) (key : string)
    (config : EnvVarSchema.t) : list ValidationError.t :=
  if isRequired config && negb (hasValue value) && negb (hasDefault config)
  then [missingError key config]
  else
    match EnvVarSchema.allowed config, effectiveValue value config with
    | Some allowed, Some effective =>
        if bool_decide (0 < length allowed)
        then if negb (JS.includes allowed effective)
             then [invalidError key config effective]
             else []
        else []
    | _, _ => []
    end.

(** One iteration: the state is the pair of the local [errors] array and
    [values] object. *)
Definition loopBody (env : JS.record)
    (st : list ValidationError.t * JS.record)
    (entry : string * EnvVarSchema.t) : list ValidationError.t * JS.record :=
  let '(errors, values) := st in
  let '(key, config) := entry in
  let value := JS.get env key in
  let values := JS.set values key (effectiveValue value config) in
  (errors ++ checkEntry value key config, values).

Definition runLoop (env : JS.record) (schema : EnvSchema)
    : list ValidationError.t * JS.record :=
  fold_left (loopBody env) schema ([], ∅).

Section WithProcessEnv.

(** [process.env] at the time of the call. *)
Variable process_env : JS.record.

Definition optEnv (options : ValidateOptions.t) : JS.record :=
  default process_env (ValidateOptions.env options).

Definition optThrowOnError (options : ValidateOptions.t) : bool :=
  default true (ValidateOptions.throwOnError options).

Definition validateEnv (schema : EnvSchema) (options : ValidateOptions.t)
    : Eff ValidationResult.t :=
  let env := optEnv options in
  let throwOnError := optThrowOnError options in
  let '(errors, values) := runLoop env schema in
  let result :=
    ValidationResult.mk (bool_decide (length errors = 0)) errors values in
  if negb (ValidationResult.valid result) && throwOnError then
    let errorMessage := formatErrors errors in
    console_error errorMessage ;;
    throw_error ("Environment validation failed: "
                 +:+ JS.string_of_nat (length errors) +:+ " error(s)")
  else ret result.

Definition getEnv (schema : EnvSchema) (key : string)
    (options : ValidateOptions.t) : Eff (option string) :=
  result ← validateEnv schema
              (ValidateOptions.with_throwOnError options false) ;
  ret (JS.get (ValidationResult.values result) key).

Definition isEnvValid (schema : EnvSchema) (options : ValidateOptions.t)
    : Eff bool :=
  result ← validateEnv schema
              (ValidateOptions.with_throwOnError options false) ;
  ret (ValidationResult.valid result).

End WithProcessEnv.

(** ** The same code over a store of objects

    [validateEnv] receives references: the schema object, the spec object
    of each variable, the [allowed] array of a spec and the environment
    object live in a store shared with the caller, and the function
    allocates its [errors] array, its [values] object, one object per
    error and the result record in that store. An error's [expected] is
    the reference held by [config.allowed], not a copy. The array [lines]
    of [formatErrors] never leaves that function and stays a list. *)

Module Heap.

Abbreviation loc := nat.

Inductive object :=
  (** an [EnvVarSchema]: required, description, example, default, allowed *)
  | OVarSchema (required : option bool) (description example : option string)
      (default : option string) (allowed : option loc)
  (** an [EnvSchema], as its entries *)
  | OSchema (entries : list (string * loc))
  (** a [string[]] *)
  | OStrings (elems : list string)
  (** a [Record<string, string | undefined>] *)
  | ORecord (props : JS.record)
  (** a [ValidationError]: variable, message, description, expected *)
  | OError (variable message : string) (description : option string)
      (expected : option loc)
  (** a [ValidationError[]] *)
  | OErrors (elems : list loc)
  (** a [ValidationResult]: valid, errors, values *)
  | OResult (valid : bool) (errors values : loc).

Record state := mkState {
  objects : list object;
  console : list string
}.

Inductive outcome (A : Type) :=
  | Ok (a : A)
  | Raise (msg : string)
  (** an object read at another type than its declared one *)
  | Stuck.
Arguments Ok {A} a.
Arguments Raise {A} msg.
Arguments Stuck {A}.

Definition M (A : Type) : Type := state → outcome A * state.

Definition ret {A} (a : A) : M A := λ s, (Ok a, s).
Definition bind {A B} (m : M A) (k : A → M B) : M B :=
  λ s, match m s with
       | (Ok a, s') => k a s'
       | (Raise msg, s') => (Raise msg, s')
       | (Stuck, s') => (Stuck, s')
       end.
#[global] Instance M_ret : MRet M := @ret.
#[global] Instance M_bind : MBind M := λ A B k m, bind m k.

Definition stuck {A} : M A := λ s, (Stuck, s).
Definition raise {A} (msg : string) : M A := λ s, (Raise msg, s).
Definition alloc (o : object) : M loc :=
  λ s, (Ok (length (objects s)), mkState (objects s ++ [o]) (console s)).
Definition load (l : loc) : M object :=
  λ s, match objects s !! l with
       | Some o => (Ok o, s)
       | None => (Stuck, s)
       end.
Definition store (l : loc) (o : object) : M unit :=
  λ s, (Ok tt, mkState (<[l := o]> (objects s)) (console s)).
Definition console_error (msg : string) : M unit :=
  λ s, (Ok tt, mkState (objects s) (console s ++ [msg])).

Definition loadStrings (l : loc) : M (list string) :=
  o ← load l;
  match o with OStrings elems => ret elems | _ => stuck end.

Definition loadErrors (l : loc) : M (list loc) :=
  o ← load l;
  match o with OErrors elems => ret elems | _ => stuck end.

(** [o[key]] *)
Definition getProp (l : loc) (key : string) : M (option string) :=
  o ← load l;
  match o with ORecord props => ret (JS.get props key) | _ => stuck end.

(** [o[key] = v] *)
Definition setProp (l : loc) (key : string) (v : option string) : M unit :=
  o ← load l;
  match o with
  | ORecord props => store l (ORecord (JS.set props key v))
  | _ => stuck
  end.

(** [errors.push({ variable, message, description, expected })] *)
Definition pushError (errors : loc) (variable message : string)
    (description : option string) (expected : option loc) : M unit :=
  e ← alloc (OError variable message description expected);
  elems ← loadErrors errors;
  store errors (OErrors (elems ++ [e])).

Fixpoint forEach {A} (f : A → M unit) (l : list A) : M unit :=
  match l with
  | [] => ret tt
  | x :: rest => f x ;; forEach f rest
  end.

(** The loop of [formatErrors], [lines] being its local array. *)
Fixpoint formatLines (errors : list loc) (lines : list string)
    : M (list string) :=
  match errors with
  | [] => ret lines
  | e :: rest =>
      o ← load e;
      match o with
      | OError _ message description expected =>
          let lines :=
            lines ++ [colors.red +:+ "❌ " +:+ message +:+ colors.reset] in
          let lines :=
            match description with
            | Some d =>
                if bool_decide (d = "") then lines
                else lines ++ [colors.cyan +:+ "ℹ️  " +:+ d +:+ colors.reset]
            | None => lines
            end in
          lines ←
            match expected with
            | Some arr =>
                elems ← loadStrings arr;
                if bool_decide (0 < length elems)
                then ret (lines ++ [colors.gray +:+ "   Allowed values: "
                                    +:+ JS.join ", " elems +:+ colors.reset])
                else ret lines
            | None => ret lines
            end;
          formatLines rest (lines ++ [""])
      | _ => stuck
      end
  end.

Definition formatErrors (errors : loc) : M string :=
  elems ← loadErrors errors;
  lines ← formatLines elems
             [""; colors.red +:+ colors.bold
                  +:+ "❌ Environment validation failed" +:+ colors.reset;
              ""];
  ret (JS.join JS.newline lines).

(** The body of the loop over [Object.entries(schema)]. *)
Definition iteration (env errors values : loc) (entry : string * loc)
    : M unit :=
  let '(key, config) := entry in
  value ← getProp env key;
  c ← load config;
  match c with
  | OVarSchema required description _ default allowed =>
      let isRequired := bool_decide (required = Some true) in
      let hasDefault := bool_decide (default ≠ None) in
      let hasValue := hasValue value in
      let effectiveValue := if hasValue then value else default in
      setProp values key effectiveValue ;;
      if isRequired && negb hasValue && negb hasDefault then
        pushError errors key ("Missing environment variable: " +:+ key)
          description allowed
      else
        match allowed with
        | Some arr =>
            elems ← loadStrings arr;
            match bool_decide (0 < length elems), effectiveValue with
            | true, Some effective =>
                if negb (JS.includes elems effective)
                then pushError errors key
                       ("Invalid value for " +:+ key +:+ ": " +:+ JS.dquote
                        +:+ effective +:+ JS.dquote)
                       description allowed
                else ret tt
            | _, _ => ret tt
            end
        | None => ret tt
        end
  | _ => stuck
  end.

(** [process_env] is the reference held by [process.env]; [env] and
    [throwOnError] are the two properties read from [options]. *)
Definition validateEnv (process_env schema : loc) (env : option loc)
    (throwOnError : option bool) : M loc :=
  let env := default process_env env in
  let throwOnError := default true throwOnError in
  errors ← alloc (OErrors []);
  values ← alloc (ORecord ∅);
  s ← load schema;
  match s with
  | OSchema entries =>
      forEach (iteration env errors values) entries ;;
      elems ← loadErrors errors;
      let valid := bool_decide (length elems = 0) in
      result ← alloc (OResult valid errors values);
      if negb valid && throwOnError then
        errorMessage ← formatErrors errors;
        console_error errorMessage ;;
        raise ("Environment validation failed: "
               +:+ JS.string_of_nat (length elems) +:+ " error(s)")
      else ret result
  | _ => stuck
  end.

(** *** Reading typed values back from a store *)

Definition readAllowed (h : list object) (allowed : option loc)
    : option (option (list string)) :=
  match allowed with
  | None => Some None
  | Some arr =>
      match h !! arr with
      | Some (OStrings elems) => Some (Some elems)
      | _ => None
      end
  end.

Definition readVarSchema (h : list object) (l : loc)
    : option EnvVarSchema.t :=
  match h !! l with
  | Some (OVarSchema required description example default allowed) =>
      EnvVarSchema.mk required description example default
        <$> readAllowed h allowed
  | _ => None
  end.

Definition readEntry (h : list object) (entry : string * loc)
    : option (string * EnvVarSchema.t) :=
  pair entry.1 <$> readVarSchema h entry.2.

Definition readSchema (h : list object) (l : loc) : option EnvSchema :=
  match h !! l with
  | Some (OSchema entries) => mapM (readEntry h) entries
  | _ => None
  end.

Definition readRecord (h : list object) (l : loc) : option JS.record :=
  match h !! l with
  | Some (ORecord props) => Some props
  | _ => None
  end.

Definition readErrorObject (h : list object) (o : object)
    : option ValidationError.t :=
  match o with
  | OError variable message description expected =>
      ValidationError.mk variable message description
        <$> readAllowed h expected
  | _ => None
  end.

Definition readError (h : list object) (l : loc)
    : option ValidationError.t :=
  h !! l ≫= readErrorObject h.

Definition readResult (h : list object) (l : loc)
    : option ValidationResult.t :=
  match h !! l with
  | Some (OResult valid errors values) =>
      match h !! errors with
      | Some (OErrors elems) =>
          errs ← mapM (readError h) elems;
          vals ← readRecord h values;
          Some (ValidationResult.mk valid errs vals)
      | _ => None
      end
  | _ => None
  end.

(** The store while the loop runs: the caller's objects [h0], then the
    [errors] array, the [values] object and the error objects. *)
Definition shape (h0 : list object) (vals : JS.record)
    (eobjs : list object) : list object :=
  h0 ++ OErrors (seq (length h0 + 2) (length eobjs)) :: ORecord vals :: eobjs.

(** A store holding the schema and snapshot of scenario 2. *)
Definition scenario2_store : list object :=
  [OStrings ["development"; "production"; "test"];
   OVarSchema (Some false) None None (Some "development") (Some 0);
   OSchema [("NODE_ENV", 1)];
   ORecord {["NODE_ENV" := Some "staging"]}].

End Heap.

(** ** Property reads at run time

    The environment and the local [values] object are ordinary objects:
    a read [o[key]] that finds no own property goes on to the prototype,
    and for an object literal, for [process.env] and for [{}] that
    prototype is [Object.prototype]. The definitions above read a
    property at its declared type [string | undefined]; the ones below
    follow the read as it is executed, and agree with them on every
    schema none of whose keys names a member of [Object.prototype]. *)

Module Proto.

(** The property names of [Object.prototype], as the language defines
    it and no program has extended it. *)
Definition memberNames : list string :=
  ["constructor"; "__defineGetter__"; "__defineSetter__"; "hasOwnProperty";
   "__lookupGetter__"; "__lookupSetter__"; "isPrototypeOf";
   "propertyIsEnumerable"; "toString"; "valueOf"; "__proto__";
   "toLocaleString"].

(** What a read of a [Record<string, string | undefined>] yields:
    [undefined], a string, or the member of [Object.prototype] of that
    name (a function; for [__proto__] the prototype object itself). *)
Inductive jsval :=
  | Undefined
  | Str (s : string)
  | Member (name : string).

#[global] Instance jsval_eq_dec : EqDecision jsval.
Proof. solve_decision. Defined.

Definition ofOption (v : option string) : jsval :=
  match v with
  | Some s => Str s
  | None => Undefined
  end.

(** An environment object: its own properties, and whether its
    prototype is [Object.prototype] (an object literal, [process.env])
    or it has none ([Object.create(null)]). An object with a prototype
    of its own making is not covered. *)
Record Env := mkEnv {
  own : JS.record;
  plain : bool
}.

(** What the prototype chain yields for a name that is not an own
    property. *)
Definition inherited (plain : bool) (key : string) : jsval :=
  if plain && bool_decide (key ∈ memberNames) then Member key else Undefined.

(** [env[key]] *)
Definition get (env : Env) (key : string) : jsval :=
  match own env !! key with
  | Some v => ofOption v
  | None => inherited (plain env) key
  end.

(** The own properties of the object created by [values = {}]. *)
Abbreviation values := (gmap string jsval).

(** [values[key]] *)
Definition getValue (vs : values) (key : string) : jsval :=
  match vs !! key with
  | Some v => v
  | None => inherited true key
  end.

(** [values[key] = v]. For [__proto__] the assignment runs the setter
    inherited from [Object.prototype]: it adds no own property, it
    ignores a string and [undefined], and given [Object.prototype]
    itself, the only object the loop can hand it, it leaves the
    prototype as it was. *)
Definition setValue (vs : values) (key : string) (v : jsval) : values :=
  if bool_decide (key = "__proto__") then vs else <[key := v]> vs.

(** [value !== undefined && value !== ""] *)
Definition hasValue (value : jsval) : bool :=
  match value with
  | Undefined => false
  | Str s => bool_decide (s ≠ "")
  | Member _ => true
  end.

Definition effectiveValue (value : jsval) (config : EnvVarSchema.t) : jsval :=
  if hasValue value then value else ofOption (EnvVarSchema.default config).

(** [allowed.includes(v)]: strict equality with a string of the array. *)
Definition includes (allowed : list string) (v : jsval) : bool :=
  match v with
  | Str s => JS.includes allowed s
  | _ => false
  end.

Record Result := mkResult {
  valid : bool;
  errors : list ValidationError.t;
  resultValues : values
}.

Record Options := mkOptions {
  env : option Env;
  throwOnError : option bool
}.

Definition with_throwOnError (options : Options) (b : bool) : Options :=
  mkOptions (env options) (Some b).

Section WithHost.

(** [`${member}`] for the member of [Object.prototype] of a given name:
    the text the host gives for a built-in function, and for
    [__proto__] the text of the prototype object. *)
Variable memberText : string → string.

(** [process.env] at the time of the call. *)
Variable process_env : Env.

(** [`${v}`] *)
Definition text (v : jsval) : string :=
  match v with
  | Undefined => "undefined"
  | Str s => s
  | Member name => memberText name
  end.

Definition checkEntry (value : jsval) (key : string)
    (config : EnvVarSchema.t) : list ValidationError.t :=
  if isRequired config && negb (hasValue value) && negb (hasDefault config)
  then [missingError key config]
  else
    match EnvVarSchema.allowed config with
    | Some allowed =>
        if bool_decide (0 < length allowed)
           && bool_decide (effectiveValue value config ≠ Undefined)
        then if negb (includes allowed (effectiveValue value config))
             then [invalidError key config
                     (text (effectiveValue value config))]
             else []
        else []
    | None => []
    end.

Definition loopBody (env : Env) (st : list ValidationError.t * values)
    (entry : string * EnvVarSchema.t) : list ValidationError.t * values :=
  let '(errors, values) := st in
  let '(key, config) := entry in
  let value := get env key in
  let values := setValue values key (effectiveValue value config) in
  (errors ++ checkEntry value key config, values).

Definition runLoop (env : Env) (schema : EnvSchema)
    : list ValidationError.t * values :=
  fold_left (loopBody env) schema ([], ∅).

Definition validateEnv (schema : EnvSchema) (options : Options)
    : Eff Result :=
  let env := default process_env (env options) in
  let throwOnError := default true (throwOnError options) in
  let '(errors, values) := runLoop env schema in
  let result := mkResult (bool_decide (length errors = 0)) errors values in
  if negb (valid result) && throwOnError then
    let errorMessage := formatErrors errors in
    console_error errorMessage ;;
    throw_error ("Environment validation failed: "
                 +:+ JS.string_of_nat (length errors) +:+ " error(s)")
  else ret result.

Definition getEnv (schema : EnvSchema) (key : string) (options : Options)
    : Eff jsval :=
  result ← validateEnv schema (with_throwOnError options false) ;
  ret (getValue (resultValues result) key).

Definition isEnvValid (schema : EnvSchema) (options : Options) : Eff bool :=
  result ← validateEnv schema (with_throwOnError options false) ;
  ret (valid result).

End WithHost.

(** The typed result seen at run time. *)
Definition ofResult (r : ValidationResult.t) : Result :=
  mkResult (ValidationResult.valid r) (ValidationResult.errors r)
    (ofOption <$> ValidationResult.values r).

Definition ofCompletion (c : completion ValidationResult.t)
    : completion Result :=
  match c with
  | Return r => Return (ofResult r)
  | Throw msg => Throw msg
  end.

(** The object literal [{}] as an environment. *)
Definition emptyEnv : Env := mkEnv ∅ true.

(** Options that pass [env] and switch throwing off. *)
Definition nonThrowing (env : Env) : Options :=
  mkOptions (Some env) (Some false).

(** [{ constructor: config }] *)
Definition constructorSchema (config : EnvVarSchema.t) : EnvSchema :=
  [("constructor", config)].

End Proto.

(** ** Vocabulary of the specification *)

(** The errors one schema entry contributes under [env]. *)
Definition entryErrors (env : JS.record) (entry : string * EnvVarSchema.t)
    : list ValidationError.t :=
  checkEntry (JS.get env entry.1) entry.1 entry.2.

(** "Required with no provided value and no default". *)
Definition missingReason (value : option string) (config : EnvVarSchema.t)
    : Prop :=
  EnvVarSchema.required config = Some true
  ∧ (value = None ∨ value = Some "")
  ∧ EnvVarSchema.default config = None.

(** "The resolved value is present and not a member of a non-empty
    allowed list". *)
Definition enumReason (effective : option string) (config : EnvVarSchema.t)
    : Prop :=
  ∃ v allowed,
    effective = Some v
    ∧ EnvVarSchema.allowed config = Some allowed
    ∧ allowed ≠ []
    ∧ v ∉ allowed.


(** The environment object has an own property [key] holding the
    non-empty string [s]. *)
Definition ownValue (E : Proto.Env) (key s : string) : Prop :=
  Proto.own E !! key = Some (Some s) ∧ s ≠ "".

(** The environment object has no own property [key] and inherits one
    of that name from [Object.prototype]. *)
Definition inheritedBy (E : Proto.Env) (key : string) : Prop :=
  Proto.own E !! key = None
  ∧ Proto.plain E = true
  ∧ key ∈ Proto.memberNames.

(** The read [env[key]] yields something else than [undefined] and the
    empty string. *)
Definition providedBy (E : Proto.Env) (key : string) : Prop :=
  (∃ s, ownValue E key s) ∨ inheritedBy E key.

(** "Required, nothing provided, no default", for the read as executed. *)
Definition missingIn (E : Proto.Env) (key : string) (config : EnvVarSchema.t)
    : Prop :=
  EnvVarSchema.required config = Some true
  ∧ ¬ providedBy E key
  ∧ EnvVarSchema.default config = None.

(** "The resolved value is present and not a member of a non-empty
    allowed list", for the read as executed: the resolved value is the
    own non-empty string, or the inherited member, which is no string of
    any list, or else the default. *)
Definition outsideAllowed (E : Proto.Env) (key : string)
    (config : EnvVarSchema.t) : Prop :=
  ∃ allowed,
    EnvVarSchema.allowed config = Some allowed
    ∧ allowed ≠ []
    ∧ ((∃ s, ownValue E key s ∧ s ∉ allowed)
       ∨ inheritedBy E key
       ∨ (¬ providedBy E key
          ∧ ∃ d, EnvVarSchema.default config = Some d ∧ d ∉ allowed)).

(** The entries of [{ DATABASE_URL: { required: true }, 1: { required:
    true } }]: [Object.entries] yields the integer-like key first. *)
Definition integerKey_schema : EnvSchema :=
  [("1", EnvVarSchema.mk (Some true) None None None None);
   ("DATABASE_URL", EnvVarSchema.mk (Some true) None None None None)].

(** A schema with a key that every object literal inherits. *)
Definition toString_schema : EnvSchema :=
  [("toString", EnvVarSchema.mk None None None (Some "d") (Some ["d"]));
   ("PORT", EnvVarSchema.mk (Some true) None None None None)].

(** A store [h'] keeps the objects of [h]. *)
Definition keeps (h h' : list Heap.object) : Prop :=
  ∀ l o, h !! l = Some o → h' !! l = Some o.

(** The error objects that one iteration allocates in the store: one
    per error of [checkEntry], its [expected] holding the reference that
    [config.allowed] holds. *)
Definition entryObjects (h0 : list Heap.object) (env : JS.record)
    (entry : string * nat) : list Heap.object :=
  match h0 !! entry.2 with
  | Some (Heap.OVarSchema required description example default allowed) =>
      match Heap.readAllowed h0 allowed with
      | Some allowedList =>
          map (λ e, Heap.OError (ValidationError.variable e)
                      (ValidationError.message e)
                      (ValidationError.description e) allowed)
              (checkEntry (JS.get env entry.1) entry.1
                 (EnvVarSchema.mk required description example default
                    allowedList))
      | None => []
      end
  | _ => []
  end.

(** The schemas and snapshots of the specification's scenarios. *)
Definition scenario1_schema : EnvSchema :=
  [("DATABASE_URL", EnvVarSchema.mk (Some true) None None None None)].

Definition scenario2_schema : EnvSchema :=
  [("NODE_ENV",
    EnvVarSchema.mk (Some false) None None (Some "development")
      (Some ["development"; "production"; "test"]))].

Definition scenario4_schema : EnvSchema :=
  [("PORT", EnvVarSchema.mk (Some false) None None (Some "3000") None)].


Definition nonThrowing (env : JS.record) : ValidateOptions.t :=
  ValidateOptions.mk (Some env) (Some false).

(** ** cli.ts: the argument parser *)

Module Cli.

Record CliArgs := mkCliArgs {
  command : string;
  schema : option string;
  cwd : string;
  mdFile : string;
  envFile : string;
  includeComments : bool;
  groupByRequired : bool
}.

Definition set_command (r : CliArgs) (v : string) : CliArgs :=
  mkCliArgs v (schema r) (cwd r) (mdFile r) (envFile r) (includeComments r)
    (groupByRequired r).
Definition set_schema (r : CliArgs) (v : string) : CliArgs :=
  mkCliArgs (command r) (Some v) (cwd r) (mdFile r) (envFile r)
    (includeComments r) (groupByRequired r).
Definition set_cwd (r : CliArgs) (v : string) : CliArgs :=
  mkCliArgs (command r) (schema r) v (mdFile r) (envFile r)
    (includeComments r) (groupByRequired r).
Definition set_mdFile (r : CliArgs) (v : string) : CliArgs :=
  mkCliArgs (command r) (schema r) (cwd r) v (envFile r) (includeComments r)
    (groupByRequired r).
Definition set_envFile (r : CliArgs) (v : string) : CliArgs :=
  mkCliArgs (command r) (schema r) (cwd r) (mdFile r) v (includeComments r)
    (groupByRequired r).
Definition set_includeComments (r : CliArgs) (v : bool) : CliArgs :=
  mkCliArgs (command r) (schema r) (cwd r) (mdFile r) (envFile r) v
    (groupByRequired r).
Definition set_groupByRequired (r : CliArgs) (v : bool) : CliArgs :=
  mkCliArgs (command r) (schema r) (cwd r) (mdFile r) (envFile r)
    (includeComments r) v.

(** [s.startsWith(p)] *)
Fixpoint startsWith (s p : string) : bool :=
  match p, s with
  | EmptyString, _ => true
  | String c p', String d s' => bool_decide (c = d) && startsWith s' p'
  | String _ _, EmptyString => false
  end.

(** The branches of the loop body that do not read [args[i + 1]]. *)
Definition flagStep (result : CliArgs) (arg : string) : CliArgs :=
  if bool_decide (arg = "--no-comments") then set_includeComments result false
  else if bool_decide (arg = "--group") then set_groupByRequired result true
  else if bool_decide (arg = "-h") || bool_decide (arg = "--help")
  then set_command result "help"
  else if bool_decide (arg = "-v") || bool_decide (arg = "--version")
  then set_command result "version"
  else if negb (startsWith arg "-") && bool_decide (command result = "")
  then set_command result arg
  else result.

(** The [while] loop, from index [i] on: [args] is what is left of the
    array at [i]. A value option applies when [args[i + 1]] is defined and
    not the empty string, and then consumes it ([args[++i]]). *)
Fixpoint parseLoop (result : CliArgs) (args : list string) : CliArgs :=
  match args with
  | [] => result
  | arg :: rest =>
      match rest with
      | next :: rest' =>
          if bool_decide (arg = "--schema") && bool_decide (next ≠ "")
          then parseLoop (set_schema result next) rest'
          else if bool_decide (arg = "--cwd") && bool_decide (next ≠ "")
          then parseLoop (set_cwd result next) rest'
          else if bool_decide (arg = "--md-file") && bool_decide (next ≠ "")
          then parseLoop (set_mdFile result next) rest'
          else if bool_decide (arg = "--env-file") && bool_decide (next ≠ "")
          then parseLoop (set_envFile result next) rest'
          else parseLoop (flagStep result arg) rest
      | [] => parseLoop (flagStep result arg) rest
      end
  end.

(** [process_cwd] is [process.cwd()]. *)
Definition initial (process_cwd : string) : CliArgs :=
  mkCliArgs "" None process_cwd "ENVIRONMENT.md" ".env.example" true false.

Definition parseArgs (process_cwd : string) (args : list string) : CliArgs :=
  parseLoop (initial process_cwd) args.

(** The options that take a value. *)
Definition valueFlags : list string :=
  ["--schema"; "--cwd"; "--md-file"; "--env-file"].

Definition isHelpFlag (arg : string) : bool :=
  bool_decide (arg = "-h") || bool_decide (arg = "--help").
Definition isVersionFlag (arg : string) : bool :=
  bool_decide (arg = "-v") || bool_decide (arg = "--version").

(** An argument that can become the command. *)
Definition isPositional (arg : string) : bool :=
  negb (startsWith arg "-") && bool_decide (arg ≠ "").

(** The command named by arguments without value options: the last help
    or version flag, else the first positional argument, else none. *)
Definition commandOf (args : list string) : string :=
  match last (List.filter (λ a, isHelpFlag a || isVersionFlag a) args) with
  | Some f => if isHelpFlag f then "help" else "version"
  | None => default "" (head (List.filter isPositional args))
  end.

End Cli.

(** ** loadSchema.ts *)

Module LoadSchema.

(** A JavaScript value as far as [loadSchema] looks at one: its
    truthiness, whether [typeof] gives ["object"], whether it is an array,
    and its own enumerable entries. Numbers are the integers. *)
Inductive value :=
  | VUndefined
  | VNull
  | VBoolean (b : bool)
  | VNumber (n : Z)
  | VString (s : string)
  | VFunction
  | VArray (elems : list value)
  | VObject (props : list (string * value)).

Definition truthy (v : value) : bool :=
  match v with
  | VUndefined | VNull => false
  | VBoolean b => b
  | VNumber n => bool_decide (n ≠ 0%Z)
  | VString s => bool_decide (s ≠ "")
  | VFunction | VArray _ | VObject _ => true
  end.

(** [typeof v === "object"] *)
Definition typeofObject (v : value) : bool :=
  match v with
  | VNull | VArray _ | VObject _ => true
  | _ => false
  end.

Definition isArray (v : value) : bool :=
  match v with VArray _ => true | _ => false end.

Definition isNull (v : value) : bool :=
  match v with VNull => true | _ => false end.

(** [Object.entries(v)] for a [v] with [typeof v === "object"]. *)
Definition objectEntries (v : value) : list (string * value) :=
  match v with
  | VObject props => props
  | VArray elems => imap (λ i x, (JS.string_of_nat i, x)) elems
  | _ => []
  end.

(** [m[name]] on an object given by its entries. *)
Fixpoint getProp (m : list (string * value)) (name : string) : value :=
  match m with
  | [] => VUndefined
  | (k, v) :: rest => if bool_decide (k = name) then v else getProp rest name
  end.

(** [s.includes(sub)] *)
Fixpoint includes (s sub : string) : bool :=
  Cli.startsWith s sub
  || match s with
     | EmptyString => false
     | String _ s' => includes s' sub
     end.

(** [s.endsWith(suffix)] *)
Definition endsWith (s suffix : string) : bool :=
  bool_decide (String.length suffix ≤ String.length s)%nat
  && bool_decide
       (String.substring (String.length s - String.length suffix)
          (String.length suffix) s = suffix).

Definition SCHEMA_FILE_NAMES : list string :=
  ["env.schema.ts"; "env.schema.js"; "env.schema.mjs"; "env.schema.cjs";
   "envguard.config.ts"; "envguard.config.js"; "envguard.config.mjs";
   "envguard.config.cjs"].

Definition SCHEMA_EXPORT_NAMES : list string :=
  ["envSchema"; "schema"; "default"].

Definition isValidSchema (obj : value) : bool :=
  if negb (truthy obj) || negb (typeofObject obj) then false
  else
    let entries := objectEntries obj in
    if bool_decide (length entries = 0) then false
    else
      forallb (λ '(key, value),
                 negb (isNull value) && typeofObject value
                 && negb (isArray value))
              entries.

Definition getSchemaFilePaths : list string := SCHEMA_FILE_NAMES.

(** What a failed [import] throws: an [Error] with its message, or another
    value with its [String(...)]. *)
Inductive thrown :=
  | TError (message : string)
  | TOther (text : string).

(** [error instanceof Error ? error.message : String(error)] *)
Definition errorText (error : thrown) : string :=
  match error with
  | TError message => message
  | TOther text => text
  end.

Section WithSystem.

(** [existsSync], [join] and [resolve] of Node, the [href] of
    [pathToFileURL], the outcome of the dynamic [import] of a URL (what it
    throws, or the entries of the module namespace object) and
    [process.cwd()]. *)
Variable existsSync : string → bool.
Variable join : string → string → string.
Variable resolve : string → string → string.
Variable fileUrl : string → string.
Variable importModule : string → thrown + list (string * value).
Variable process_cwd : string.

(** The [for] loop of [findSchemaFile] over the names left. *)
Fixpoint findIn (cwd : string) (names : list string) : option string :=
  match names with
  | [] => None
  | fileName :: rest =>
      let filePath := join cwd fileName in
      if existsSync filePath then Some filePath else findIn cwd rest
  end.

Definition findSchemaFile (cwd : option string) : option string :=
  findIn (default process_cwd cwd) SCHEMA_FILE_NAMES.

(** The [for] loop over the export names left. *)
Fixpoint pickExport (module : list (string * value)) (names : list string)
    : option value :=
  match names with
  | [] => None
  | exportName :: rest =>
      if truthy (getProp module exportName)
         && typeofObject (getProp module exportName)
      then Some (getProp module exportName)
      else pickExport module rest
  end.

Definition notFoundMessage : string :=
  "Could not find schema file. Looked for:" +:+ JS.newline
  +:+ JS.join JS.newline (map (λ f, "  - " +:+ f) SCHEMA_FILE_NAMES)
  +:+ JS.newline +:+ JS.newline
  +:+ "Create one of these files with your schema, or specify a path with --schema".

Definition noExportMessage : string :=
  "Schema file does not export a valid schema. Expected export named: "
  +:+ JS.join ", " SCHEMA_EXPORT_NAMES.

Definition typeScriptMessage (schemaPath : string) (error : thrown) : string :=
  "Could not load TypeScript schema file: " +:+ schemaPath
  +:+ JS.newline +:+ JS.newline
  +:+ "Make sure you have either:" +:+ JS.newline
  +:+ "  1. Compiled your schema to JavaScript" +:+ JS.newline
  +:+ "  2. Using a runtime that supports TypeScript (tsx, ts-node, bun)"
  +:+ JS.newline
  +:+ "  3. Or use a .js schema file instead" +:+ JS.newline +:+ JS.newline
  +:+ "Original error: " +:+ errorText error.

Definition failedMessage (schemaPath : string) (error : thrown) : string :=
  "Failed to load schema file: " +:+ schemaPath +:+ JS.newline
  +:+ errorText error.

(** The [try] block: what it throws, or the value it returns. *)
Definition tryLoad (schemaPath : string) : thrown + value :=
  match importModule (fileUrl schemaPath) with
  | inl error => inl error
  | inr module =>
      match pickExport module SCHEMA_EXPORT_NAMES with
      | Some v => inr v
      | None =>
          if isValidSchema (VObject module) then inr (VObject module)
          else inl (TError noExportMessage)
      end
  end.

(** The [catch] block: the message of the [Error] it throws. *)
Definition catchLoad (schemaPath : string) (error : thrown) : string :=
  if match error with
     | TError message => includes message "does not export"
     | TOther _ => false
     end
  then errorText error
  else if endsWith schemaPath ".ts" then typeScriptMessage schemaPath error
  else failedMessage schemaPath error.

(** [loadSchema(filePath, cwd)]: the message of the [Error] the promise is
    rejected with, or the value it resolves to. *)
Definition loadSchema (filePath cwd : option string) : string + value :=
  let cwd' := default process_cwd cwd in
  let schemaPath :=
    match filePath with
    | Some f => if bool_decide (f ≠ "") then Some (resolve cwd' f)
                else findSchemaFile (Some cwd')
    | None => findSchemaFile (Some cwd')
    end in
  match schemaPath with
  | Some path =>
      if bool_decide (path = "") then inl notFoundMessage
      else if negb (existsSync path)
      then inl ("Schema file not found: " +:+ path)
      else
        match tryLoad path with
        | inr v => inr v
        | inl error => inl (catchLoad path error)
        end
  | None => inl notFoundMessage
  end.

End WithSystem.

(** A directory [/app] that holds [env.schema.js] only, with paths joined
    by a slash, to run the functions on. *)
Definition demo_join (a b : string) : string := a +:+ "/" +:+ b.
Definition demo_exists (p : string) : bool :=
  bool_decide (p = "/app/env.schema.js").
Definition demo_url (p : string) : string := "file://" +:+ p.
Definition demo_schema : value :=
  VObject [("PORT", VObject [("default", VString "3000")])].
Definition demo_required : value :=
  VObject [("DATABASE_URL", VObject [("required", VBoolean true)])].

End LoadSchema.

(** ** cli.ts: the [check] command *)

Module Check.

Inductive stream := Stdout | Stderr.

#[global] Instance stream_eq_dec : EqDecision stream.
Proof. solve_decision. Defined.

(** The colours of [cli.ts]; [red], [cyan], [gray], [reset] and [bold]
    have the values they have in [validate.ts]. *)
Definition green : string := JS.esc +:+ "[32m".

Definition log (message : string) : stream * string := (Stdout, message).
Definition success (message : string) : stream * string :=
  (Stdout, green +:+ "✔" +:+ colors.reset +:+ " " +:+ message).
Definition error (message : string) : stream * string :=
  (Stderr, colors.red +:+ "✖" +:+ colors.reset +:+ " " +:+ message).
Definition info (message : string) : stream * string :=
  (Stdout, colors.cyan +:+ "ℹ" +:+ colors.reset +:+ " " +:+ message).

Definition printBanner : list (stream * string) :=
  [log "";
   log (colors.bold +:+ colors.cyan +:+ "envguard" +:+ colors.reset
        +:+ " - Environment Variable Guardian");
   log ""].

(** What the loop over [result.errors] prints for one error. *)
Definition printError (err : ValidationError.t) : list (stream * string) :=
  [error (ValidationError.message err)]
  ++ match ValidationError.description err with
     | Some d => if bool_decide (d = "") then [] else [info d]
     | None => []
     end
  ++ match ValidationError.expected err with
     | Some expected =>
         if bool_decide (0 < length expected)
         then [log ("  " +:+ colors.gray +:+ "Allowed values: "
                    +:+ JS.join ", " expected +:+ colors.reset)]
         else []
     | None => []
     end
  ++ [log ""].

(** A property of a spec object read at its declared type
    [string | undefined]. *)
Definition asString (v : LoadSchema.value) : option (option string) :=
  match v with
  | LoadSchema.VUndefined => Some None
  | LoadSchema.VString s => Some (Some s)
  | _ => None
  end.

Definition asBoolean (v : LoadSchema.value) : option (option bool) :=
  match v with
  | LoadSchema.VUndefined => Some None
  | LoadSchema.VBoolean b => Some (Some b)
  | _ => None
  end.

Definition asStrings (v : LoadSchema.value) : option (option (list string)) :=
  match v with
  | LoadSchema.VUndefined => Some None
  | LoadSchema.VArray elems =>
      Some <$> mapM (λ x, match x with
                          | LoadSchema.VString s => Some s
                          | _ => None
                          end) elems
  | _ => None
  end.

(** A loaded value that has the declared type [EnvVarSchema], as such. *)
Definition asEnvVarSchema (v : LoadSchema.value) : option EnvVarSchema.t :=
  match v with
  | LoadSchema.VObject fields =>
      required ← asBoolean (LoadSchema.getProp fields "required");
      description ← asString (LoadSchema.getProp fields "description");
      example ← asString (LoadSchema.getProp fields "example");
      default ← asString (LoadSchema.getProp fields "default");
      allowed ← asStrings (LoadSchema.getProp fields "allowed");
      Some (EnvVarSchema.mk required description example default allowed)
  | _ => None
  end.

(** A loaded value that has the declared type [EnvSchema], as the list of
    its entries; [None] for a value of another shape, on which the cast
    [as EnvSchema] of [loadSchema] is unsound. *)
Definition asEnvSchema (v : LoadSchema.value) : option EnvSchema :=
  match v with
  | LoadSchema.VObject props =>
      mapM (λ entry, pair entry.1 <$> asEnvVarSchema entry.2) props
  | _ => None
  end.

Section WithSystem.

Variable existsSync : string → bool.
Variable join : string → string → string.
Variable resolve : string → string → string.
Variable fileUrl : string → string.
Variable importModule :
  string → LoadSchema.thrown + list (string * LoadSchema.value).
Variable process_cwd : string.
Variable process_env : JS.record.

(** [commandCheck(args)]: what it prints and the exit code it resolves
    to; [None] when the loaded value does not have the type [EnvSchema]. *)
Definition commandCheck (args : Cli.CliArgs)
    : option (list (stream * string) * nat) :=
  let schemaPath :=
    match Cli.schema args with
    | Some s =>
        if bool_decide (s ≠ "") then Some s
        else LoadSchema.findSchemaFile existsSync join process_cwd
               (Some (Cli.cwd args))
    | None =>
        LoadSchema.findSchemaFile existsSync join process_cwd
          (Some (Cli.cwd args))
    end in
  let notFound :=
    printBanner
    ++ [error "Could not find schema file!"; log "";
        info "Create one of these files with your schema:"]
    ++ map (λ file, log ("  " +:+ colors.gray +:+ "- " +:+ file
                         +:+ colors.reset))
           LoadSchema.getSchemaFilePaths in
  match schemaPath with
  | None => Some (notFound, 1)
  | Some path =>
      if bool_decide (path = "") then Some (notFound, 1)
      else
        let out :=
          printBanner
          ++ [info ("Loading schema from " +:+ colors.cyan +:+ path
                    +:+ colors.reset)] in
        match LoadSchema.loadSchema existsSync join resolve fileUrl
                importModule process_cwd (Cli.schema args)
                (Some (Cli.cwd args)) with
        | inl message => Some (out ++ [error message], 1)
        | inr v =>
            match asEnvSchema v with
            | None => None
            | Some schema =>
                let out :=
                  out
                  ++ [info ("Checking " +:+ JS.string_of_nat (length schema)
                            +:+ " environment variable(s)...");
                      log ""] in
                match validateEnv process_env schema
                        (ValidateOptions.mk None (Some false)) with
                | (lines, Return result) =>
                    let out := out ++ map (pair Stderr) lines in
                    if ValidationResult.valid result then
                      Some (out
                            ++ [success "All environment variables are valid!";
                                log ""],
                            0)
                    else
                      Some (out
                            ++ concat (map printError
                                         (ValidationResult.errors result))
                            ++ [error ("Validation failed with "
                                       +:+ JS.string_of_nat
                                             (length (ValidationResult.errors
                                                        result))
                                       +:+ " error(s)")],
                            1)
                | (lines, Throw message) =>
                    Some (out ++ map (pair Stderr) lines ++ [error message],
                          1)
                end
            end
        end
  end.

End WithSystem.

(** The lines written to the error stream. *)
Definition stderrLines (out : list (stream * string)) : list string :=
  snd <$> List.filter (λ l, bool_decide (l.1 = Stderr)) out.

End Check.

(** * Theorems *)

(** ** The loop of [validateEnv] *)

Lemma fold_loopBody env schema errors values :
  fold_left (loopBody env) schema (errors, values)
  = (errors ++ concat (map (entryErrors env) schema),
     fold_left (λ vs entry,
                  JS.set vs entry.1
                    (effectiveValue (JS.get env entry.1) entry.2))
               schema values).
Proof.
  revert errors values.
  induction schema as [|[key config] rest IH]; intros errors values; simpl.
  - by rewrite app_nil_r.
  - rewrite IH. unfold entryErrors at 2. simpl. by rewrite <- app_assoc.
Qed.

Lemma runLoop_errors env schema :
  (runLoop env schema).1 = concat (map (entryErrors env) schema).
Proof. unfold runLoop. by rewrite fold_loopBody. Qed.



Lemma fold_set_dom env schema (values : JS.record) :
  dom (fold_left (λ vs entry,
               JS.set vs entry.1 (effectiveValue (JS.get env entry.1) entry.2))
            schema values)
  = dom values ∪ list_to_set schema.*1.
Proof.
  revert values.
  induction schema as [|[key c] rest IH]; intros values; simpl.
  - set_solver.
  - rewrite IH. unfold JS.set. rewrite dom_insert_L. set_solver.
Qed.


Lemma runLoop_values_dom env schema :
  dom (runLoop env schema).2 = list_to_set schema.*1.
Proof.
  unfold runLoop. rewrite fold_loopBody. simpl.
  rewrite fold_set_dom. set_solver.
Qed.

Lemma runLoop_values_size env schema :
  NoDup schema.*1 →
  size (runLoop env schema).2 = length schema.
Proof.
  intros Hnd. rewrite <- size_dom, runLoop_values_dom.
  rewrite size_list_to_set by done. by rewrite length_fmap.
Qed.

(** Without [throwOnError] the call returns the record built from the
    loop's state and writes nothing. *)
Lemma validateEnv_nothrow process_env schema options :
  optThrowOnError options = false →
  validateEnv process_env schema options
  = ([], Return (ValidationResult.mk
                   (bool_decide (length (runLoop (optEnv process_env options)
                                           schema).1 = 0))
                   (runLoop (optEnv process_env options) schema).1
                   (runLoop (optEnv process_env options) schema).2)).
Proof.
  intros Hthrow. unfold validateEnv. rewrite Hthrow.
  destruct (runLoop _ _) as [errors values]. simpl.
  by rewrite andb_false_r.
Qed.

Lemma effectiveValue_has value config v :
  value = Some v → v ≠ "" → effectiveValue value config = Some v.
Proof.
  intros -> Hv. unfold effectiveValue, hasValue.
  by rewrite bool_decide_eq_true_2.
Qed.

Lemma effectiveValue_default value config :
  value = None ∨ value = Some "" →
  effectiveValue value config = EnvVarSchema.default config.
Proof. by intros [-> | ->]. Qed.

(** ** Runs on the scenarios of the specification *)

Example scenario3_valid :
  validateEnv ∅ scenario2_schema (nonThrowing ∅)
  = ([], Return (ValidationResult.mk true []
                   {["NODE_ENV" := Some "development"]})).
Proof. vm_compute. reflexivity. Qed.

Example scenario2_allowed_member :
  validateEnv ∅ scenario2_schema
    (ValidateOptions.mk (Some {["NODE_ENV" := Some "test"]}) None)
  = ([], Return (ValidationResult.mk true []
                   {["NODE_ENV" := Some "test"]})).
Proof. vm_compute. reflexivity. Qed.

Example scenario1_throws :
  (validateEnv ∅ scenario1_schema ValidateOptions.empty).2
  = Throw "Environment validation failed: 1 error(s)".
Proof. vm_compute. reflexivity. Qed.

Example scenario1_process_env :
  validateEnv {["DATABASE_URL" := Some "postgres://db"]} scenario1_schema
    ValidateOptions.empty
  = ([], Return (ValidationResult.mk true []
                   {["DATABASE_URL" := Some "postgres://db"]})).
Proof. vm_compute. reflexivity. Qed.

(** ** What one iteration pushes *)

Lemma enumCheck_cases value key config e :
  e ∈ match EnvVarSchema.allowed config, effectiveValue value config with
      | Some allowed, Some effective =>
          if bool_decide (0 < length allowed)
          then if negb (JS.includes allowed effective)
               then [invalidError key config effective]
               else []
          else []
      | _, _ => []
      end →
  ∃ v, e = invalidError key config v
       ∧ effectiveValue value config = Some v
       ∧ enumReason (Some v) config.
Proof.
  destruct (EnvVarSchema.allowed config) as [allowed|] eqn:Hal;
    destruct (effectiveValue value config) as [v|] eqn:Heff; simpl;
    try (intros He; by apply elem_of_nil in He).
  destruct (bool_decide_reflect (0 < length allowed)) as [Hlen|Hlen];
    [|intros He; by apply elem_of_nil in He].
  unfold JS.includes.
  destruct (bool_decide_reflect (v ∈ allowed)) as [Hmem|Hmem]; simpl.
  - intros He. by apply elem_of_nil in He.
  - intros He%list_elem_of_singleton. exists v.
    repeat split; [done|]. exists v, allowed. repeat split; try done.
    intros ->. simpl in Hlen. lia.
Qed.

Lemma hasValue_false value :
  hasValue value = false → value = None ∨ value = Some "".
Proof.
  destruct value as [v|]; [|by left]. simpl. intros Hhas. right.
  apply bool_decide_eq_false in Hhas.
  destruct (decide (v = "")) as [->|]; [done|by destruct Hhas].
Qed.

Lemma checkEntry_cases value key config e :
  e ∈ checkEntry value key config →
  (e = missingError key config ∧ missingReason value config
   ∧ effectiveValue value config = None)
  ∨ (∃ v, e = invalidError key config v
          ∧ effectiveValue value config = Some v
          ∧ enumReason (Some v) config).
Proof.
  unfold checkEntry, isRequired, hasDefault.
  destruct (bool_decide_reflect (EnvVarSchema.required config = Some true))
    as [Hreq|Hreq]; simpl; [|right; by eapply enumCheck_cases].
  destruct (hasValue value) eqn:Hhas; simpl;
    [right; by eapply enumCheck_cases|].
  destruct (bool_decide_reflect (EnvVarSchema.default config ≠ None))
    as [Hdef|Hdef]; simpl; [right; by eapply enumCheck_cases|].
  intros He%list_elem_of_singleton. left.
  assert (EnvVarSchema.default config = None) as Hnone.
  { destruct (EnvVarSchema.default config); [|done]. by destruct Hdef. }
  pose proof (hasValue_false _ Hhas) as Hval.
  repeat split; try done.
  by rewrite (effectiveValue_default _ _ Hval).
Qed.

Lemma checkEntry_variable value key config e :
  e ∈ checkEntry value key config → ValidationError.variable e = key.
Proof.
  intros [(-> & _)|(v & -> & _)]%checkEntry_cases; reflexivity.
Qed.

(** An iteration pushes at most one error. *)
Lemma checkEntry_length value key config :
  (length (checkEntry value key config) ≤ 1)%nat.
Proof.
  unfold checkEntry.
  repeat (case_match; simpl; try lia).
Qed.

Lemma errors_variables_sublist env (schema : EnvSchema) :
  sublist (ValidationError.variable <$> concat (map (entryErrors env) schema))
          schema.*1.
Proof.
  induction schema as [|[key config] rest IH]; simpl; [done|].
  rewrite fmap_app.
  pose proof (checkEntry_length (JS.get env key) key config) as Hlen.
  unfold entryErrors at 1. simpl.
  destruct (checkEntry (JS.get env key) key config) as [|e [|e' l]] eqn:Hce;
    simpl in *; [by apply sublist_cons| |lia].
  assert (ValidationError.variable e = key) as ->.
  { eapply checkEntry_variable. rewrite Hce. by left. }
  by apply sublist_skip.
Qed.

Section Filter.
Context {A : Type} (P : A → Prop) `{!∀ x, Decision (P x)}.

Lemma filter_all (l : list A) : Forall P l → filter P l = l.
Proof.
  induction 1 as [|x l Hx _ IH]; [done|].
  by rewrite filter_cons_True, IH.
Qed.

Lemma filter_none (l : list A) : Forall (λ x, ¬ P x) l → filter P l = [].
Proof.
  induction 1 as [|x l Hx _ IH]; [done|].
  by rewrite filter_cons_False.
Qed.
End Filter.

(** The errors of one key are those of its own iteration. *)
Lemma errors_of_key env (schema : EnvSchema) key config :
  NoDup schema.*1 →
  (key, config) ∈ schema →
  filter (λ e, ValidationError.variable e = key) (runLoop env schema).1
  = checkEntry (JS.get env key) key config.
Proof.
  rewrite runLoop_errors.
  induction schema as [|[k c] rest IH]; intros Hnd Hin; simpl in *.
  - by apply elem_of_nil in Hin.
  - apply NoDup_cons in Hnd as [Hfresh Hnd].
    rewrite filter_app. unfold entryErrors at 1. simpl.
    apply elem_of_cons in Hin as [Heq|Hin].
    + injection Heq as <- <-.
      rewrite filter_all; last first.
      { apply Forall_forall. intros e He. by eapply checkEntry_variable. }
      rewrite filter_none; [by rewrite app_nil_r|].
      apply Forall_forall. intros e He Hvar. apply Hfresh.
      rewrite <- Hvar.
      apply (sublist_subseteq _ _ (errors_variables_sublist env rest)).
      by apply list_elem_of_fmap_2.
    + rewrite filter_none; [by apply IH|].
      apply Forall_forall. intros e He Hvar.
      apply checkEntry_variable in He. apply Hfresh.
      rewrite <- He, Hvar. by apply (list_elem_of_fmap_2 fst _ (key, config)).
Qed.









Lemma checkEntry_invalid value key config allowed v :
  EnvVarSchema.allowed config = Some allowed →
  allowed ≠ [] →
  effectiveValue value config = Some v →
  v ∉ allowed →
  checkEntry value key config = [invalidError key config v].
Proof.
  intros Hal Hne Heff Hmem. unfold checkEntry.
  assert (isRequired config && negb (hasValue value)
          && negb (hasDefault config) = false) as ->.
  { unfold effectiveValue in Heff. unfold hasDefault.
    destruct (hasValue value); simpl; [by rewrite andb_false_r|].
    rewrite Heff. rewrite bool_decide_eq_true_2 by done.
    by rewrite andb_false_r. }
  rewrite Hal, Heff.
  rewrite bool_decide_eq_true_2 by (destruct allowed; simpl; [done|lia]).
  unfold JS.includes. by rewrite bool_decide_eq_false_2.
Qed.

Lemma checkEntry_missing value key config :
  EnvVarSchema.required config = Some true →
  value = None ∨ value = Some "" →
  EnvVarSchema.default config = None →
  checkEntry value key config = [missingError key config].
Proof.
  intros Hreq Hval Hdef. unfold checkEntry, isRequired, hasDefault.
  rewrite Hreq, Hdef. by destruct Hval as [-> | ->].
Qed.

Lemma result_invalid_of_error (errors : list ValidationError.t) e :
  e ∈ errors → bool_decide (length errors = 0) = false.
Proof. destruct errors; [by intros ?%elem_of_nil|done]. Qed.

(** ** Blank values *)

(** An iteration sees the environment's value only through [hasValue] and
    the effective value. *)
Lemma loopBody_blank env1 env2 st (entry : string * EnvVarSchema.t) :
  (JS.get env1 entry.1 = JS.get env2 entry.1
   ∨ (hasValue (JS.get env1 entry.1) = false
      ∧ hasValue (JS.get env2 entry.1) = false)) →
  loopBody env1 st entry = loopBody env2 st entry.
Proof.
  destruct st as [errors values], entry as [key config]. simpl.
  intros [->|[H1 H2]]; [done|].
  unfold checkEntry, effectiveValue. by rewrite H1, H2.
Qed.

Lemma runLoop_blank env1 env2 (schema : EnvSchema) :
  (∀ key, JS.get env1 key = JS.get env2 key
          ∨ (hasValue (JS.get env1 key) = false
             ∧ hasValue (JS.get env2 key) = false)) →
  runLoop env1 schema = runLoop env2 schema.
Proof.
  intros Hblank. unfold runLoop. generalize (@nil ValidationError.t, (∅ : JS.record)).
  induction schema as [|entry rest IH]; intros st; simpl; [done|].
  rewrite (loopBody_blank env1 env2 st entry) by apply Hblank.
  apply IH.
Qed.

Lemma get_insert_blank_delete (env : JS.record) k key :
  JS.get (<[k := Some ""]> env) key = JS.get (delete k env) key
  ∨ (hasValue (JS.get (<[k := Some ""]> env) key) = false
     ∧ hasValue (JS.get (delete k env) key) = false).
Proof.
  unfold JS.get. destruct (decide (k = key)) as [->|Hne].
  - right. by rewrite lookup_insert_eq, lookup_delete_eq.
  - left. by rewrite lookup_insert_ne, lookup_delete_ne.
Qed.

(** C7. [getEnv] returns the entry of the key in the [values] of the
    non-throwing [validateEnv] on the same environment, and [isEnvValid]
    returns its [valid] flag; neither writes nor throws, whatever the
    schema, the environment and the [throwOnError] passed in. *)
Theorem wrappers_refine_validateEnv process_env (schema : EnvSchema) key
    options :
  ∃ result,
    validateEnv process_env schema
      (ValidateOptions.mk (Some (optEnv process_env options)) (Some false))
    = ([], Return result)
    ∧ getEnv process_env schema key options
      = ([], Return (JS.get (ValidationResult.values result) key))
    ∧ isEnvValid process_env schema options
      = ([], Return (ValidationResult.valid result)).
Proof.
  eexists. split; [by apply validateEnv_nothrow|].
  unfold getEnv, isEnvValid.
  rewrite (validateEnv_nothrow process_env schema
             (ValidateOptions.with_throwOnError options false)) by done.
  split; reflexivity.
Qed.

(** ** The store-level code *)

Lemma keeps_app (h ext : list Heap.object) : keeps h (h ++ ext).
Proof. intros l o Hl. by apply lookup_app_l_Some. Qed.

Lemma readAllowed_keeps h h' allowed r :
  keeps h h' → Heap.readAllowed h allowed = Some r →
  Heap.readAllowed h' allowed = Some r.
Proof.
  intros Hk. destruct allowed as [arr|]; [|done].
  unfold Heap.readAllowed.
  destruct (h !! arr) as [o|] eqn:Harr; [|done].
  by rewrite (Hk _ _ Harr).
Qed.

Lemma readVarSchema_keeps h h' l c :
  keeps h h' → Heap.readVarSchema h l = Some c →
  Heap.readVarSchema h' l = Some c.
Proof.
  intros Hk. unfold Heap.readVarSchema.
  destruct (h !! l) as [o|] eqn:Hl; [|done].
  rewrite (Hk _ _ Hl). destruct o; try done.
  destruct (Heap.readAllowed h allowed) as [r|] eqn:Hr; [|done].
  by rewrite (readAllowed_keeps _ _ _ _ Hk Hr).
Qed.

Lemma readSchema_keeps h h' l schema :
  keeps h h' → Heap.readSchema h l = Some schema →
  Heap.readSchema h' l = Some schema.
Proof.
  intros Hk. unfold Heap.readSchema.
  destruct (h !! l) as [o|] eqn:Hl; [|done].
  rewrite (Hk _ _ Hl). destruct o; try done.
  rewrite !mapM_Some. intros Hall. eapply Forall2_impl; [exact Hall|].
  intros [key cl] [key' c]. unfold Heap.readEntry. simpl.
  destruct (Heap.readVarSchema h cl) as [c0|] eqn:Hc; [|done].
  by rewrite (readVarSchema_keeps _ _ _ _ Hk Hc).
Qed.

Lemma readRecord_keeps h h' l props :
  keeps h h' → Heap.readRecord h l = Some props →
  Heap.readRecord h' l = Some props.
Proof.
  intros Hk. unfold Heap.readRecord.
  destruct (h !! l) as [o|] eqn:Hl; [|done].
  by rewrite (Hk _ _ Hl).
Qed.

Lemma readErrorObject_keeps h h' o e :
  keeps h h' → Heap.readErrorObject h o = Some e →
  Heap.readErrorObject h' o = Some e.
Proof.
  intros Hk. destruct o; try done. unfold Heap.readErrorObject.
  destruct (Heap.readAllowed h expected) as [r|] eqn:Hr; [|done].
  by rewrite (readAllowed_keeps _ _ _ _ Hk Hr).
Qed.

(** *** The shape of the store during the loop *)

Lemma shape_length h0 vals eobjs :
  length (Heap.shape h0 vals eobjs) = length h0 + 2 + length eobjs.
Proof. unfold Heap.shape. rewrite length_app. simpl. lia. Qed.

Lemma shape_keeps h0 vals eobjs : keeps h0 (Heap.shape h0 vals eobjs).
Proof. apply keeps_app. Qed.

Lemma shape_lookup_errors h0 vals eobjs :
  Heap.shape h0 vals eobjs !! length h0
  = Some (Heap.OErrors (seq (length h0 + 2) (length eobjs))).
Proof. unfold Heap.shape. by rewrite list_lookup_middle. Qed.

Lemma shape_lookup_values h0 vals eobjs :
  Heap.shape h0 vals eobjs !! S (length h0) = Some (Heap.ORecord vals).
Proof.
  unfold Heap.shape. rewrite lookup_app_r by lia.
  by replace (S (length h0) - length h0) with 1 by lia.
Qed.

Lemma shape_lookup_error h0 vals eobjs i :
  Heap.shape h0 vals eobjs !! (length h0 + 2 + i) = eobjs !! i.
Proof.
  unfold Heap.shape. rewrite lookup_app_r by lia.
  by replace (length h0 + 2 + i - length h0) with (S (S i)) by lia.
Qed.

Lemma shape_set_values h0 vals vals' eobjs :
  <[S (length h0) := Heap.ORecord vals']> (Heap.shape h0 vals eobjs)
  = Heap.shape h0 vals' eobjs.
Proof.
  unfold Heap.shape. rewrite insert_app_r_alt by lia.
  by replace (S (length h0) - length h0) with 1 by lia.
Qed.

Lemma shape_push h0 vals eobjs o :
  <[length h0 :=
      Heap.OErrors (seq (length h0 + 2) (length eobjs)
                    ++ [length (Heap.shape h0 vals eobjs)])]>
    (Heap.shape h0 vals eobjs ++ [o])
  = Heap.shape h0 vals (eobjs ++ [o]).
Proof.
  rewrite shape_length. unfold Heap.shape.
  rewrite <- app_assoc. rewrite insert_app_r_alt by lia.
  rewrite Nat.sub_diag. simpl.
  rewrite length_app. simpl. rewrite seq_app. simpl.
  by replace (length h0 + 2 + length eobjs)
    with (length h0 + 2 + length eobjs)%nat by lia.
Qed.

(** *** Running the store operations *)

Lemma bind_ok {A B} (m : Heap.M A) (k : A → Heap.M B) s a s' :
  m s = (Heap.Ok a, s') → (m ≫= k) s = k a s'.
Proof. intros H. unfold mbind, Heap.M_bind, Heap.bind. by rewrite H. Qed.

Lemma load_exec s l o :
  Heap.objects s !! l = Some o → Heap.load l s = (Heap.Ok o, s).
Proof. intros H. unfold Heap.load. by rewrite H. Qed.

Lemma loadStrings_exec s l elems :
  Heap.objects s !! l = Some (Heap.OStrings elems) →
  Heap.loadStrings l s = (Heap.Ok elems, s).
Proof.
  intros H. unfold Heap.loadStrings.
  by rewrite (bind_ok _ _ _ _ _ (load_exec _ _ _ H)).
Qed.

Lemma loadErrors_exec s l elems :
  Heap.objects s !! l = Some (Heap.OErrors elems) →
  Heap.loadErrors l s = (Heap.Ok elems, s).
Proof.
  intros H. unfold Heap.loadErrors.
  by rewrite (bind_ok _ _ _ _ _ (load_exec _ _ _ H)).
Qed.

Lemma getProp_exec s l props key :
  Heap.objects s !! l = Some (Heap.ORecord props) →
  Heap.getProp l key s = (Heap.Ok (JS.get props key), s).
Proof.
  intros H. unfold Heap.getProp.
  by rewrite (bind_ok _ _ _ _ _ (load_exec _ _ _ H)).
Qed.

Lemma setProp_exec s l props key v :
  Heap.objects s !! l = Some (Heap.ORecord props) →
  Heap.setProp l key v s
  = (Heap.Ok tt,
     Heap.mkState (<[l := Heap.ORecord (JS.set props key v)]> (Heap.objects s))
       (Heap.console s)).
Proof.
  intros H. unfold Heap.setProp.
  by rewrite (bind_ok _ _ _ _ _ (load_exec _ _ _ H)).
Qed.

Lemma pushError_exec h0 vals eobjs cons variable message description expected :
  Heap.pushError (length h0) variable message description expected
    (Heap.mkState (Heap.shape h0 vals eobjs) cons)
  = (Heap.Ok tt,
     Heap.mkState
       (Heap.shape h0 vals
          (eobjs ++ [Heap.OError variable message description expected]))
       cons).
Proof.
  unfold Heap.pushError.
  erewrite bind_ok; [|reflexivity]. simpl.
  erewrite bind_ok; last first.
  { apply loadErrors_exec. simpl. apply lookup_app_l_Some.
    apply shape_lookup_errors. }
  unfold Heap.store. simpl. by rewrite shape_push.
Qed.

Lemma readVarSchema_inv h l c :
  Heap.readVarSchema h l = Some c →
  ∃ allowed,
    h !! l = Some (Heap.OVarSchema (EnvVarSchema.required c)
                     (EnvVarSchema.description c) (EnvVarSchema.example c)
                     (EnvVarSchema.default c) allowed)
    ∧ Heap.readAllowed h allowed = Some (EnvVarSchema.allowed c).
Proof.
  unfold Heap.readVarSchema.
  destruct (h !! l) as [[]|]; try done.
  destruct (Heap.readAllowed h allowed) as [r|] eqn:Hr; [|done].
  simpl. intros [= <-]. by exists allowed.
Qed.

(** One iteration on the store does what [loopBody] does. *)
Lemma iteration_exec h0 envL E key cl c vals eobjs errs cons :
  h0 !! envL = Some (Heap.ORecord E) →
  Heap.readVarSchema h0 cl = Some c →
  Forall2 (λ o e, Heap.readErrorObject h0 o = Some e) eobjs errs →
  ∃ eobjs',
    Heap.iteration envL (length h0) (S (length h0)) (key, cl)
      (Heap.mkState (Heap.shape h0 vals eobjs) cons)
    = (Heap.Ok tt,
       Heap.mkState
         (Heap.shape h0 (JS.set vals key (effectiveValue (JS.get E key) c))
            eobjs')
         cons)
    ∧ Forall2 (λ o e, Heap.readErrorObject h0 o = Some e) eobjs'
        (errs ++ checkEntry (JS.get E key) key c).
Proof.
  intros Henv (al & Hcl & Hal)%readVarSchema_inv Hobjs.
  unfold Heap.iteration.
  erewrite bind_ok; last first.
  { apply getProp_exec. simpl. by apply shape_keeps. }
  erewrite bind_ok; last first.
  { apply load_exec. simpl. by apply shape_keeps. }
  cbv beta iota.
  erewrite bind_ok; last first.
  { apply setProp_exec. simpl. apply shape_lookup_values. }
  cbn [Heap.objects Heap.console]. rewrite shape_set_values.
  unfold checkEntry, isRequired, hasDefault.
  fold (effectiveValue (JS.get E key) c).
  destruct (bool_decide (EnvVarSchema.required c = Some true)
            && negb (hasValue (JS.get E key))
            && negb (bool_decide (EnvVarSchema.default c ≠ None))).
  { eexists. split; [apply pushError_exec|].
    apply Forall2_app; [done|]. constructor; [|done].
    unfold Heap.readErrorObject. by rewrite Hal. }
  destruct al as [arr|]; last first.
  { injection Hal as <-. exists eobjs. split; [done|]. by rewrite app_nil_r. }
  unfold Heap.readAllowed in Hal.
  destruct (h0 !! arr) as [[]|] eqn:Harr; try done.
  injection Hal as Hal. rewrite <- Hal.
  erewrite bind_ok; last first.
  { apply loadStrings_exec. simpl. by apply shape_keeps. }
  destruct (effectiveValue (JS.get E key) c) as [effective|];
    destruct (bool_decide (0 < length elems)); simpl;
    try (exists eobjs; split; [done|]; by rewrite app_nil_r).
  destruct (JS.includes elems effective); simpl.
  { exists eobjs. split; [done|]. by rewrite app_nil_r. }
  eexists. split; [apply pushError_exec|].
  apply Forall2_app; [done|]. constructor; [|done].
  unfold Heap.readErrorObject, Heap.readAllowed, invalidError.
  by rewrite Harr, <- Hal.
Qed.

Lemma readEntry_inv h key cl key' c :
  Heap.readEntry h (key, cl) = Some (key', c) →
  key' = key ∧ Heap.readVarSchema h cl = Some c.
Proof.
  unfold Heap.readEntry. simpl.
  destruct (Heap.readVarSchema h cl); [|done]. simpl. by intros [= <- <-].
Qed.

(** The loop on the store does what [fold_left loopBody] does. *)
Lemma forEach_exec h0 envL E entries (schema : EnvSchema) cons :
  h0 !! envL = Some (Heap.ORecord E) →
  Forall2 (λ x y, Heap.readEntry h0 x = Some y) entries schema →
  ∀ vals eobjs errs,
    Forall2 (λ o e, Heap.readErrorObject h0 o = Some e) eobjs errs →
    ∃ eobjs',
      Heap.forEach (Heap.iteration envL (length h0) (S (length h0))) entries
        (Heap.mkState (Heap.shape h0 vals eobjs) cons)
      = (Heap.Ok tt,
         Heap.mkState
           (Heap.shape h0 (fold_left (loopBody E) schema (errs, vals)).2
              eobjs')
           cons)
      ∧ Forall2 (λ o e, Heap.readErrorObject h0 o = Some e) eobjs'
          (fold_left (loopBody E) schema (errs, vals)).1.
Proof.
  intros Henv Hents.
  induction Hents as [|[key cl] [key' c] entries schema Hent _ IH];
    intros vals eobjs errs Hobjs.
  - exists eobjs. by split.
  - apply readEntry_inv in Hent as [-> Hc].
    destruct (iteration_exec h0 envL E key cl c vals eobjs errs cons
                Henv Hc Hobjs) as (eobjs1 & Hrun & Hobjs1).
    destruct (IH (JS.set vals key (effectiveValue (JS.get E key) c)) _ _
                Hobjs1) as (eobjs2 & Hrest & Hobjs2).
    exists eobjs2. split; [|exact Hobjs2].
    cbn [Heap.forEach]. erewrite bind_ok; [|exact Hrun]. exact Hrest.
Qed.

Lemma readError_inv h l e :
  Heap.readError h l = Some e →
  ∃ expected,
    h !! l = Some (Heap.OError (ValidationError.variable e)
                     (ValidationError.message e)
                     (ValidationError.description e) expected)
    ∧ Heap.readAllowed h expected = Some (ValidationError.expected e).
Proof.
  unfold Heap.readError. destruct (h !! l) as [[]|]; try done. simpl.
  destruct (Heap.readAllowed h expected) as [r|] eqn:Hr; [|done].
  simpl. intros [= <-]. by exists expected.
Qed.

(** The loop of [formatErrors] on the store pushes the lines of
    [formatError] for each error. *)
Lemma formatLines_exec s locs errs :
  Forall2 (λ l e, Heap.readError (Heap.objects s) l = Some e) locs errs →
  ∀ lines,
    Heap.formatLines locs lines s
    = (Heap.Ok (lines ++ concat (map formatError errs)), s).
Proof.
  induction 1 as [|l e locs errs He _ IH]; intros lines; simpl.
  - by rewrite app_nil_r.
  - apply readError_inv in He as (expected & Hl & Hexp).
    erewrite bind_ok; [|by apply load_exec]. cbv beta iota.
    unfold formatError.
    destruct expected as [arr|].
    + unfold Heap.readAllowed in Hexp.
      destruct (Heap.objects s !! arr) as [[]|] eqn:Harr; try done.
      injection Hexp as <-.
      destruct (bool_decide (0 < length elems)) eqn:Hlen.
      * erewrite bind_ok; last first.
        { erewrite bind_ok; [|by apply loadStrings_exec].
          rewrite Hlen. reflexivity. }
        rewrite IH. do 2 f_equal.
        destruct (ValidationError.description e) as [d|];
          [destruct (bool_decide (d = ""))|]; simpl;
          by rewrite <- ?app_assoc.
      * erewrite bind_ok; last first.
        { erewrite bind_ok; [|by apply loadStrings_exec].
          rewrite Hlen. reflexivity. }
        rewrite IH. do 2 f_equal.
        destruct (ValidationError.description e) as [d|];
          [destruct (bool_decide (d = ""))|]; simpl;
          by rewrite <- ?app_assoc.
    + injection Hexp as <-.
      erewrite bind_ok; [|reflexivity].
      rewrite IH. do 2 f_equal.
      destruct (ValidationError.description e) as [d|];
        [destruct (bool_decide (d = ""))|]; simpl;
        by rewrite <- ?app_assoc.
Qed.

Lemma readError_seq h0 h1 eobjs errs :
  keeps h0 h1 →
  (∀ i, i < length eobjs → h1 !! (length h0 + 2 + i) = eobjs !! i) →
  Forall2 (λ o e, Heap.readErrorObject h0 o = Some e) eobjs errs →
  Forall2 (λ l e, Heap.readError h1 l = Some e)
    (seq (length h0 + 2) (length eobjs)) errs.
Proof.
  intros Hk Hlook Hobjs.
  apply Forall2_same_length_lookup_2.
  - rewrite length_seq. by eapply Forall2_length.
  - intros i l e [-> Hi]%lookup_seq He.
    destruct (lookup_lt_is_Some_2 eobjs i Hi) as [o Ho].
    unfold Heap.readError. rewrite (Hlook i Hi), Ho. simpl.
    eapply readErrorObject_keeps; [exact Hk|].
    exact (Forall2_lookup_lr _ _ _ _ _ _ Hobjs Ho He).
Qed.

(** [Heap.validateEnv] on a store that holds a schema and an environment
    does what [validateEnv] does on the values they hold, and keeps every
    object of the store. *)
Lemma Heap_validateEnv_exec process_env h0 cons peL schemaL envOpt thr
    (schema : EnvSchema) E :
  Heap.readSchema h0 schemaL = Some schema →
  Heap.readRecord h0 (default peL envOpt) = Some E →
  ∃ out h1,
    Heap.validateEnv peL schemaL envOpt thr (Heap.mkState h0 cons)
    = (out,
       Heap.mkState h1
         (cons ++ (validateEnv process_env schema
                     (ValidateOptions.mk (Some E) thr)).1))
    ∧ keeps h0 h1
    ∧ match (validateEnv process_env schema
               (ValidateOptions.mk (Some E) thr)).2 with
      | Return result =>
          ∃ l, out = Heap.Ok l ∧ Heap.readResult h1 l = Some result
      | Throw msg => out = Heap.Raise msg
      end.
Proof.
  intros Hs He.
  unfold Heap.readSchema in Hs.
  destruct (h0 !! schemaL) as [[]|] eqn:Hsl; try done.
  apply mapM_Some in Hs.
  unfold Heap.readRecord in He.
  destruct (h0 !! default peL envOpt) as [[]|] eqn:Henv; try done.
  injection He as ->.
  destruct (forEach_exec h0 _ E entries schema cons Henv Hs ∅ [] []
              (Forall2_nil_2 _ _ _)) as (eobjs & Hloop & Hobjs).
  fold (runLoop E schema) in Hloop, Hobjs.
  unfold Heap.validateEnv.
  erewrite bind_ok; [|reflexivity].
  erewrite bind_ok; [|reflexivity].
  cbn [Heap.objects Heap.console].
  replace ((h0 ++ [Heap.OErrors []]) ++ [Heap.ORecord ∅])
    with (Heap.shape h0 ∅ [])
    by (unfold Heap.shape; by rewrite <- app_assoc).
  replace (length (h0 ++ [Heap.OErrors []])) with (S (length h0))
    by (rewrite length_app; simpl; lia).
  erewrite bind_ok; last first.
  { apply load_exec. simpl. apply shape_keeps. exact Hsl. }
  cbv beta iota.
  erewrite bind_ok; [|exact Hloop].
  erewrite bind_ok; last first.
  { apply loadErrors_exec. apply shape_lookup_errors. }
  rewrite length_seq.
  erewrite bind_ok; [|reflexivity].
  cbn [Heap.objects Heap.console].
  unfold validateEnv, optEnv, optThrowOnError. simpl.
  destruct (runLoop E schema) as [errs vals] eqn:Hrun. simpl in *.
  pose proof (Forall2_length _ _ _ Hobjs) as Hlen. rewrite <- Hlen.
  set (valid := bool_decide (length eobjs = 0)).
  set (h1 := Heap.shape h0 vals eobjs
             ++ [Heap.OResult valid (length h0) (S (length h0))]).
  assert (keeps h0 h1) as Hk.
  { intros l o Hl. apply lookup_app_l_Some. by apply shape_keeps. }
  assert (Forall2 (λ l e, Heap.readError h1 l = Some e)
            (seq (length h0 + 2) (length eobjs)) errs) as Herrs.
  { apply (readError_seq h0 h1 eobjs errs Hk); [|exact Hobjs].
    intros i Hi. unfold h1. rewrite lookup_app_l.
    - apply shape_lookup_error.
    - rewrite shape_length. lia. }
  assert (h1 !! length h0
          = Some (Heap.OErrors (seq (length h0 + 2) (length eobjs))))
    as Herrors.
  { apply lookup_app_l_Some. apply shape_lookup_errors. }
  destruct (negb valid && default true thr) eqn:Hthrow; simpl.
  - erewrite bind_ok; last first.
    { unfold Heap.formatErrors.
      erewrite bind_ok; [|by apply loadErrors_exec].
      erewrite bind_ok; [|by apply formatLines_exec].
      reflexivity. }
    erewrite bind_ok; [|reflexivity].
    eexists _, h1. split; [reflexivity|]. split; [exact Hk|]. reflexivity.
  - eexists _, h1. rewrite app_nil_r. split; [reflexivity|].
    split; [exact Hk|].
    eexists. split; [reflexivity|].
    unfold Heap.readResult.
    replace (h1 !! length (Heap.shape h0 vals eobjs))
      with (Some (Heap.OResult valid (length h0) (S (length h0))))
      by (symmetry; apply list_lookup_middle; reflexivity).
    rewrite Herrors.
    rewrite (proj2 (mapM_Some _ _ _) Herrs). simpl.
    unfold Heap.readRecord.
    replace (h1 !! S (length h0)) with (Some (Heap.ORecord vals))
      by (symmetry; apply lookup_app_l_Some; apply shape_lookup_values).
    reflexivity.
Qed.

(** C9. On a store that holds a schema at [schema] and an environment at
    the reference the call reads, [validateEnv] completes, as the value
    model says, by returning a result or by throwing, whatever the
    options, and every object the store held before the call is the same
    object after it: the schema and the environment read back as before. *)
Theorem validateEnv_preserves_inputs process_env s peL schemaL envOpt thr
    (schema : EnvSchema) E :
  Heap.readSchema (Heap.objects s) schemaL = Some schema →
  Heap.readRecord (Heap.objects s) (default peL envOpt) = Some E →
  ∃ out s',
    Heap.validateEnv peL schemaL envOpt thr s = (out, s')
    ∧ (∀ l o, Heap.objects s !! l = Some o → Heap.objects s' !! l = Some o)
    ∧ Heap.readSchema (Heap.objects s') schemaL = Some schema
    ∧ Heap.readRecord (Heap.objects s') (default peL envOpt) = Some E
    ∧ Heap.console s'
      = Heap.console s
        ++ (validateEnv process_env schema
              (ValidateOptions.mk (Some E) thr)).1
    ∧ match (validateEnv process_env schema
               (ValidateOptions.mk (Some E) thr)).2 with
      | Return result =>
          ∃ l, out = Heap.Ok l
               ∧ Heap.readResult (Heap.objects s') l = Some result
      | Throw msg => out = Heap.Raise msg
      end.
Proof.
  destruct s as [h0 cons]. simpl. intros Hs He.
  destruct (Heap_validateEnv_exec process_env h0 cons peL schemaL envOpt thr
              schema E Hs He) as (out & h1 & Hrun & Hk & Hout).
  exists out, (Heap.mkState h1
                 (cons ++ (validateEnv process_env schema
                             (ValidateOptions.mk (Some E) thr)).1)).
  simpl. split; [exact Hrun|]. split; [exact Hk|].
  split; [by eapply readSchema_keeps|].
  split; [by eapply readRecord_keeps|].
  split; [reflexivity|exact Hout].
Qed.

Lemma validateEnv_preserves_inputs_witness :
  ∃ out s',
    Heap.validateEnv 3 2 None None (Heap.mkState Heap.scenario2_store [])
    = (out, s')
    ∧ (∀ l o, Heap.scenario2_store !! l = Some o →
              Heap.objects s' !! l = Some o)
    ∧ Heap.readSchema (Heap.objects s') 2 = Some scenario2_schema
    ∧ Heap.readRecord (Heap.objects s') 3
      = Some {["NODE_ENV" := Some "staging"]}
    ∧ Heap.console s'
      = [] ++ (validateEnv ∅ scenario2_schema
                 (ValidateOptions.mk
                    (Some {["NODE_ENV" := Some "staging"]}) None)).1
    ∧ match (validateEnv ∅ scenario2_schema
               (ValidateOptions.mk
                  (Some {["NODE_ENV" := Some "staging"]}) None)).2 with
      | Return result =>
          ∃ l, out = Heap.Ok l
               ∧ Heap.readResult (Heap.objects s') l = Some result
      | Throw msg => out = Heap.Raise msg
      end.
Proof.
  apply (validateEnv_preserves_inputs ∅
           (Heap.mkState Heap.scenario2_store []) 3 2 None None
           scenario2_schema {["NODE_ENV" := Some "staging"]}).
  - reflexivity.
  - reflexivity.
Defined.

(** * Names inherited from [Object.prototype] *)

(** ** The typed reading is exact away from those names *)

Lemma memberNames_proto key : key ∉ Proto.memberNames → key ≠ "__proto__".
Proof. intros Hkey ->. apply Hkey. compute_done. Qed.

Lemma Proto_get_ordinary env key :
  key ∉ Proto.memberNames →
  Proto.get env key = Proto.ofOption (JS.get (Proto.own env) key).
Proof.
  intros Hkey. unfold Proto.get, JS.get, Proto.inherited.
  destruct (Proto.own env !! key) as [v|]; simpl; [done|].
  rewrite (bool_decide_eq_false_2 _ Hkey). by rewrite andb_false_r.
Qed.

Lemma Proto_hasValue_ofOption v :
  Proto.hasValue (Proto.ofOption v) = hasValue v.
Proof. by destruct v. Qed.

Lemma Proto_effectiveValue_ofOption v config :
  Proto.effectiveValue (Proto.ofOption v) config
  = Proto.ofOption (effectiveValue v config).
Proof.
  unfold Proto.effectiveValue, effectiveValue.
  rewrite Proto_hasValue_ofOption. by destruct (hasValue v).
Qed.

Lemma Proto_checkEntry_ofOption memberText v key config :
  Proto.checkEntry memberText (Proto.ofOption v) key config
  = checkEntry v key config.
Proof.
  unfold Proto.checkEntry, checkEntry.
  rewrite Proto_effectiveValue_ofOption, Proto_hasValue_ofOption.
  destruct (isRequired config && negb (hasValue v) && negb (hasDefault config));
    [done|].
  destruct (EnvVarSchema.allowed config) as [allowed|]; [|done].
  destruct (bool_decide (0 < length allowed));
    [|by destruct (effectiveValue v config)].
  destruct (effectiveValue v config) as [e|];
    cbn [Proto.ofOption Proto.includes Proto.text andb].
  - by rewrite bool_decide_eq_true_2.
  - by rewrite bool_decide_eq_false_2 by (intros H; by apply H).
Qed.

Lemma Proto_fold_ordinary memberText env (schema : EnvSchema) errors
    (values : JS.record) :
  Forall (λ entry, entry.1 ∉ Proto.memberNames) schema →
  fold_left (Proto.loopBody memberText env) schema
    (errors, Proto.ofOption <$> values)
  = ((fold_left (loopBody (Proto.own env)) schema (errors, values)).1,
     Proto.ofOption
       <$> (fold_left (loopBody (Proto.own env)) schema (errors, values)).2).
Proof.
  revert errors values.
  induction schema as [|[key config] rest IH]; intros errors values Hord;
    simpl; [done|].
  apply Forall_cons in Hord as [Hkey Hrest]. simpl in Hkey.
  unfold Proto.setValue, JS.set.
  rewrite (bool_decide_eq_false_2 _ (memberNames_proto _ Hkey)).
  rewrite (Proto_get_ordinary _ _ Hkey), Proto_checkEntry_ofOption,
    Proto_effectiveValue_ofOption, <- fmap_insert.
  by apply IH.
Qed.

Lemma Proto_runLoop_ordinary memberText env (schema : EnvSchema) :
  Forall (λ entry, entry.1 ∉ Proto.memberNames) schema →
  Proto.runLoop memberText env schema
  = ((runLoop (Proto.own env) schema).1,
     Proto.ofOption <$> (runLoop (Proto.own env) schema).2).
Proof.
  intros Hord. unfold Proto.runLoop, runLoop.
  rewrite <- (Proto_fold_ordinary memberText env schema [] ∅ Hord).
  by rewrite fmap_empty.
Qed.

(** On a schema none of whose keys names a member of [Object.prototype],
    [validateEnv] writes and completes as the typed reading says. *)
Lemma Proto_validateEnv_ordinary memberText process_env (schema : EnvSchema)
    options :
  Forall (λ entry, entry.1 ∉ Proto.memberNames) schema →
  Proto.validateEnv memberText process_env schema options
  = ((validateEnv (Proto.own process_env) schema
        (ValidateOptions.mk (Proto.own <$> Proto.env options)
           (Proto.throwOnError options))).1,
     Proto.ofCompletion
       (validateEnv (Proto.own process_env) schema
          (ValidateOptions.mk (Proto.own <$> Proto.env options)
             (Proto.throwOnError options))).2).
Proof.
  intros Hord. unfold Proto.validateEnv, validateEnv, optEnv, optThrowOnError.
  cbn [ValidateOptions.env ValidateOptions.throwOnError].
  rewrite (Proto_runLoop_ordinary _ _ _ Hord).
  replace (default (Proto.own process_env) (Proto.own <$> Proto.env options))
    with (Proto.own (default process_env (Proto.env options)))
    by (by destruct (Proto.env options)).
  destruct (runLoop _ schema) as [errors values].
  cbn [fst snd Proto.valid ValidationResult.valid].
  by destruct (negb (bool_decide (length errors = 0))
               && default true (Proto.throwOnError options)).
Qed.

(** ** The scenarios of the specification, as executed *)

Example scenario1_at_run_time memberText process_env :
  Proto.validateEnv memberText process_env scenario1_schema
    (Proto.nonThrowing Proto.emptyEnv)
  = ([], Return (Proto.mkResult false
       [ValidationError.mk "DATABASE_URL"
          "Missing environment variable: DATABASE_URL" None None]
       {["DATABASE_URL" := Proto.Undefined]})).
Proof. vm_compute. reflexivity. Qed.

Example scenario2_at_run_time memberText process_env :
  Proto.validateEnv memberText process_env scenario2_schema
    (Proto.nonThrowing (Proto.mkEnv {["NODE_ENV" := Some "staging"]} true))
  = ([], Return (Proto.mkResult false
       [ValidationError.mk "NODE_ENV"
          ("Invalid value for NODE_ENV: " +:+ JS.dquote +:+ "staging"
           +:+ JS.dquote)
          None (Some ["development"; "production"; "test"])]
       {["NODE_ENV" := Proto.Str "staging"]})).
Proof. vm_compute. reflexivity. Qed.

Example scenario4_at_run_time memberText process_env :
  Proto.validateEnv memberText process_env scenario4_schema
    (Proto.nonThrowing (Proto.mkEnv {["PORT" := Some ""]} true))
  = ([], Return (Proto.mkResult true [] {["PORT" := Proto.Str "3000"]})).
Proof. vm_compute. reflexivity. Qed.

(** ** Runs at the name [constructor] *)

(** C1. The entry of [values] for a key can be neither the environment's
    value nor the default: for the schema [{ constructor: {} }] and the
    environment [{}], which has no property of that name and so no value
    for it, [validateEnv] records under [constructor] the function the
    environment object inherits from [Object.prototype], where nothing
    should be recorded. *)
Theorem values_entry_inherited_name memberText process_env :
  Proto.own Proto.emptyEnv !! "constructor" = None
  ∧ Proto.validateEnv memberText process_env
      (Proto.constructorSchema (EnvVarSchema.mk None None None None None))
      (Proto.nonThrowing Proto.emptyEnv)
    = ([], Return (Proto.mkResult true []
                     {["constructor" := Proto.Member "constructor"]})).
Proof. split; [done|]. vm_compute. reflexivity. Qed.

(** C4. The enum check can run on something else than the resolved
    value: for the schema [{ constructor: { default: "bad", allowed:
    ["a"] } }] and the environment [{}] the value is not present, the
    default ["bad"] is outside the allowed list, and the one error of
    [validateEnv] quotes not ["bad"] but the text of the function
    inherited from [Object.prototype], which is also what [values]
    records. *)
Theorem invalid_value_inherited_name memberText process_env :
  Proto.own Proto.emptyEnv !! "constructor" = None
  ∧ Proto.validateEnv memberText process_env
      (Proto.constructorSchema
         (EnvVarSchema.mk None None None (Some "bad") (Some ["a"])))
      (Proto.nonThrowing Proto.emptyEnv)
    = ([], Return (Proto.mkResult false
                     [ValidationError.mk "constructor"
                        ("Invalid value for constructor: " +:+ JS.dquote
                         +:+ memberText "constructor" +:+ JS.dquote)
                        None (Some ["a"])]
                     {["constructor" := Proto.Member "constructor"]})).
Proof. split; [done|]. vm_compute. reflexivity. Qed.

(** C5. A required variable without a value and without a default can go
    unreported: for the schema [{ constructor: { required: true } }] and
    the environment [{}], [validateEnv] returns a valid result with no
    error, because the read of [constructor] yields the function
    inherited from [Object.prototype]. *)
Theorem missing_required_inherited_name memberText process_env :
  Proto.own Proto.emptyEnv !! "constructor" = None
  ∧ Proto.validateEnv memberText process_env
      (Proto.constructorSchema
         (EnvVarSchema.mk (Some true) None None None None))
      (Proto.nonThrowing Proto.emptyEnv)
    = ([], Return (Proto.mkResult true []
                     {["constructor" := Proto.Member "constructor"]})).
Proof. split; [done|]. vm_compute. reflexivity. Qed.

(** C6. An empty string and an absent value can be told apart: for the
    schema [{ constructor: { default: "x" } }], the environment
    [{ constructor: "" }] resolves to the default ["x"], and the
    environment [{}] to the function inherited from
    [Object.prototype]. *)
Theorem empty_string_inherited_name memberText process_env :
  Proto.validateEnv memberText process_env
    (Proto.constructorSchema
       (EnvVarSchema.mk None None None (Some "x") None))
    (Proto.nonThrowing (Proto.mkEnv {["constructor" := Some ""]} true))
  = ([], Return (Proto.mkResult true []
                   {["constructor" := Proto.Str "x"]}))
  ∧ Proto.validateEnv memberText process_env
      (Proto.constructorSchema
         (EnvVarSchema.mk None None None (Some "x") None))
      (Proto.nonThrowing Proto.emptyEnv)
    = ([], Return (Proto.mkResult true []
                     {["constructor" := Proto.Member "constructor"]})).
Proof. split; vm_compute; reflexivity. Qed.

(** C8. With [required: true], an empty-string default and the allowed
    list [["a"]], the unset variable [constructor] does not resolve to
    the empty string: for the environment [{}], [validateEnv] records
    the function inherited from [Object.prototype] and its error quotes
    the text of that function, not the empty string. *)
Theorem empty_default_inherited_name memberText process_env :
  Proto.own Proto.emptyEnv !! "constructor" = None
  ∧ Proto.validateEnv memberText process_env
      (Proto.constructorSchema
         (EnvVarSchema.mk (Some true) None None (Some "") (Some ["a"])))
      (Proto.nonThrowing Proto.emptyEnv)
    = ([], Return (Proto.mkResult false
                     [ValidationError.mk "constructor"
                        ("Invalid value for constructor: " +:+ JS.dquote
                         +:+ memberText "constructor" +:+ JS.dquote)
                        None (Some ["a"])]
                     {["constructor" := Proto.Member "constructor"]})).
Proof. split; [done|]. vm_compute. reflexivity. Qed.

(** ** What a read decides *)

Lemma Proto_get_cases E key :
  (∃ s, ownValue E key s ∧ Proto.get E key = Proto.Str s)
  ∨ (inheritedBy E key ∧ Proto.get E key = Proto.Member key)
  ∨ (¬ providedBy E key
     ∧ (Proto.get E key = Proto.Undefined ∨ Proto.get E key = Proto.Str "")).
Proof.
  unfold providedBy, ownValue, inheritedBy, Proto.get, Proto.inherited.
  destruct (Proto.own E !! key) as [[s|]|] eqn:Hown; simpl.
  - destruct (decide (s = "")) as [->|Hs].
    + right. right. split; [|by right]. naive_solver.
    + left. by exists s.
  - right. right. split; [|by left]. naive_solver.
  - destruct (Proto.plain E); simpl.
    + destruct (decide (key ∈ Proto.memberNames)) as [Hm|Hm].
      * rewrite (bool_decide_eq_true_2 _ Hm). right. by left.
      * rewrite (bool_decide_eq_false_2 _ Hm). right. right.
        split; [|by left]. naive_solver.
    + right. right. split; [|by left]. naive_solver.
Qed.

Lemma ownValue_not_inherited E key s : ownValue E key s → ¬ inheritedBy E key.
Proof. intros [H _] [H' _]. congruence. Qed.

Lemma ownValue_unique E key s s' : ownValue E key s → ownValue E key s' → s = s'.
Proof. intros [H _] [H' _]. congruence. Qed.

(** What one iteration pushes, by the three outcomes of the read. *)
Lemma Proto_checkEntry_own memberText key config s :
  s ≠ "" →
  Proto.checkEntry memberText (Proto.Str s) key config
  = match EnvVarSchema.allowed config with
    | Some allowed =>
        if bool_decide (allowed ≠ [] ∧ s ∉ allowed)
        then [invalidError key config s] else []
    | None => []
    end.
Proof.
  intros Hs. unfold Proto.checkEntry, Proto.effectiveValue. simpl.
  rewrite (bool_decide_eq_true_2 _ Hs). simpl. rewrite andb_false_r. simpl.
  destruct (EnvVarSchema.allowed config) as [allowed|]; [|done].
  rewrite andb_true_r. unfold JS.includes.
  destruct allowed as [|a rest].
  - done.
  - rewrite (bool_decide_eq_true_2 (0 < length (a :: rest))) by (simpl; lia).
    destruct (decide (s ∈ a :: rest)) as [Hin|Hin].
    + rewrite (bool_decide_eq_true_2 _ Hin). simpl.
      rewrite bool_decide_eq_false_2; [done|]. by intros [_ ?].
    + rewrite (bool_decide_eq_false_2 _ Hin). simpl.
      by rewrite bool_decide_eq_true_2.
Qed.

Lemma Proto_checkEntry_member memberText key config name :
  Proto.checkEntry memberText (Proto.Member name) key config
  = match EnvVarSchema.allowed config with
    | Some allowed =>
        if bool_decide (allowed ≠ [])
        then [invalidError key config (memberText name)] else []
    | None => []
    end.
Proof.
  unfold Proto.checkEntry, Proto.effectiveValue. simpl.
  rewrite andb_false_r. simpl.
  destruct (EnvVarSchema.allowed config) as [allowed|]; [|done].
  rewrite andb_true_r.
  destruct allowed as [|a rest]; simpl.
  - done.
  - done.
Qed.

Lemma Proto_checkEntry_blank memberText key config value :
  value = Proto.Undefined ∨ value = Proto.Str "" →
  Proto.checkEntry memberText value key config
  = match EnvVarSchema.default config with
    | None =>
        if bool_decide (EnvVarSchema.required config = Some true)
        then [missingError key config] else []
    | Some d =>
        match EnvVarSchema.allowed config with
        | Some allowed =>
            if bool_decide (allowed ≠ [] ∧ d ∉ allowed)
            then [invalidError key config d] else []
        | None => []
        end
    end.
Proof.
  intros Hv.
  assert (Proto.hasValue value = false) as Hhas by (by destruct Hv as [-> | ->]).
  unfold Proto.checkEntry, Proto.effectiveValue, isRequired, hasDefault.
  rewrite Hhas. simpl. rewrite andb_true_r.
  destruct (EnvVarSchema.default config) as [d|]; simpl.
  - rewrite ?andb_false_r. simpl.
    destruct (EnvVarSchema.allowed config) as [allowed|]; [|done].
    rewrite ?andb_true_r. unfold JS.includes.
    destruct allowed as [|a rest]; [done|].
    rewrite (bool_decide_eq_true_2 (0 < length (a :: rest)))
      by (simpl; lia).
    destruct (decide (d ∈ a :: rest)) as [Hin|Hin].
    + rewrite (bool_decide_eq_true_2 _ Hin). simpl.
      rewrite bool_decide_eq_false_2; [done|]. by intros [_ ?].
    + rewrite (bool_decide_eq_false_2 _ Hin). simpl.
      by rewrite bool_decide_eq_true_2.
  - rewrite ?andb_true_r.
    destruct (bool_decide (EnvVarSchema.required config = Some true));
      [done|]. simpl.
    destruct (EnvVarSchema.allowed config) as [allowed|]; [|done].
    by rewrite andb_false_r.
Qed.

(** ** The loop as executed *)

Lemma Proto_fold_loopBody memberText env (schema : EnvSchema) errors values :
  fold_left (Proto.loopBody memberText env) schema (errors, values)
  = (errors
     ++ concat (map (λ entry, Proto.checkEntry memberText
                                (Proto.get env entry.1) entry.1 entry.2)
                  schema),
     fold_left (λ vs entry,
                  Proto.setValue vs entry.1
                    (Proto.effectiveValue (Proto.get env entry.1) entry.2))
               schema values).
Proof.
  revert errors values.
  induction schema as [|[key config] rest IH]; intros errors values; simpl.
  - by rewrite app_nil_r.
  - by rewrite IH, <- app_assoc.
Qed.

Lemma Proto_runLoop_errors memberText env (schema : EnvSchema) :
  (Proto.runLoop memberText env schema).1
  = concat (map (λ entry, Proto.checkEntry memberText
                            (Proto.get env entry.1) entry.1 entry.2)
              schema).
Proof. unfold Proto.runLoop. by rewrite Proto_fold_loopBody. Qed.

Lemma Proto_fold_lookup_notin env (schema : EnvSchema) (values : Proto.values)
    k :
  k ∉ schema.*1 →
  fold_left (λ vs entry,
               Proto.setValue vs entry.1
                 (Proto.effectiveValue (Proto.get env entry.1) entry.2))
            schema values !! k
  = values !! k.
Proof.
  revert values.
  induction schema as [|[key config] rest IH]; intros values Hk; simpl in *.
  - done.
  - apply not_elem_of_cons in Hk as [Hne Hk].
    rewrite IH by done. unfold Proto.setValue.
    destruct (bool_decide (key = "__proto__")); [done|].
    by rewrite lookup_insert_ne.
Qed.

Lemma Proto_fold_lookup env (schema : EnvSchema) (values : Proto.values)
    k config :
  NoDup schema.*1 →
  (k, config) ∈ schema →
  k ≠ "__proto__" →
  fold_left (λ vs entry,
               Proto.setValue vs entry.1
                 (Proto.effectiveValue (Proto.get env entry.1) entry.2))
            schema values !! k
  = Some (Proto.effectiveValue (Proto.get env k) config).
Proof.
  revert values.
  induction schema as [|[key c] rest IH]; intros values Hnd Hin Hk;
    simpl in *.
  - by apply elem_of_nil in Hin.
  - apply NoDup_cons in Hnd as [Hfresh Hnd].
    apply elem_of_cons in Hin as [Heq|Hin].
    + injection Heq as -> ->.
      rewrite Proto_fold_lookup_notin by done.
      unfold Proto.setValue. rewrite (bool_decide_eq_false_2 _ Hk).
      by rewrite lookup_insert_eq.
    + by apply IH.
Qed.

Lemma Proto_fold_dom env (schema : EnvSchema) (values : Proto.values) :
  dom (fold_left (λ vs entry,
                    Proto.setValue vs entry.1
                      (Proto.effectiveValue (Proto.get env entry.1) entry.2))
                 schema values)
  = dom values ∪ list_to_set (filter (λ key, key ≠ "__proto__") schema.*1).
Proof.
  revert values.
  induction schema as [|[key c] rest IH]; intros values; simpl.
  - set_solver.
  - rewrite IH. unfold Proto.setValue.
    destruct (decide (key = "__proto__")) as [Hk|Hk].
    + rewrite (bool_decide_eq_true_2 _ Hk).
      by rewrite filter_cons_False by (intros H; by apply H).
    + rewrite (bool_decide_eq_false_2 _ Hk).
      rewrite filter_cons_True by done. rewrite dom_insert_L. set_solver.
Qed.

Lemma Proto_validateEnv_nothrow memberText process_env (schema : EnvSchema)
    options :
  Proto.throwOnError options = Some false →
  Proto.validateEnv memberText process_env schema options
  = ([], Return
           (Proto.mkResult
              (bool_decide
                 (length (Proto.runLoop memberText
                            (default process_env (Proto.env options))
                            schema).1 = 0))
              (Proto.runLoop memberText
                 (default process_env (Proto.env options)) schema).1
              (Proto.runLoop memberText
                 (default process_env (Proto.env options)) schema).2)).
Proof.
  intros Hthrow. unfold Proto.validateEnv. rewrite Hthrow.
  destruct (Proto.runLoop _ _ _) as [errors values]. simpl.
  by rewrite andb_false_r.
Qed.

Lemma Proto_effectiveValue_cases E key config :
  (∀ s, ownValue E key s →
     Proto.effectiveValue (Proto.get E key) config = Proto.Str s)
  ∧ (inheritedBy E key →
     Proto.effectiveValue (Proto.get E key) config = Proto.Member key)
  ∧ (¬ providedBy E key →
     Proto.effectiveValue (Proto.get E key) config
     = Proto.ofOption (EnvVarSchema.default config)).
Proof.
  destruct (Proto_get_cases E key)
    as [(s & Hown & Hget)|[(Hinh & Hget)|(Hnone & Hget)]].
  - split; [|split].
    + intros s' Hs'. rewrite (ownValue_unique _ _ _ _ Hs' Hown), Hget.
      unfold Proto.effectiveValue. simpl.
      by rewrite (bool_decide_eq_true_2 _ (proj2 Hown)).
    + intros H. by destruct (ownValue_not_inherited _ _ _ Hown).
    + intros H. destruct H. left. by exists s.
  - split; [|split].
    + intros s Hs. by destruct (ownValue_not_inherited _ _ _ Hs).
    + intros _. by rewrite Hget.
    + intros H. destruct H. by right.
  - split; [|split].
    + intros s Hs. destruct Hnone. left. by exists s.
    + intros H. destruct Hnone. by right.
    + intros _. by destruct Hget as [-> | ->].
Qed.

Lemma Proto_checkEntry_variable memberText value key config e :
  e ∈ Proto.checkEntry memberText value key config →
  ValidationError.variable e = key.
Proof.
  unfold Proto.checkEntry.
  destruct (isRequired config && negb (Proto.hasValue value)
            && negb (hasDefault config)).
  { by intros ->%list_elem_of_singleton. }
  destruct (EnvVarSchema.allowed config) as [allowed|];
    [|by intros ?%elem_of_nil].
  destruct (bool_decide (0 < length allowed)
            && bool_decide (Proto.effectiveValue value config
                            ≠ Proto.Undefined));
    [|by intros ?%elem_of_nil].
  destruct (negb (Proto.includes allowed
                    (Proto.effectiveValue value config)));
    [|by intros ?%elem_of_nil].
  by intros ->%list_elem_of_singleton.
Qed.

Lemma elem_of_concat_map {A B} (f : A → list B) (l : list A) (b : B) :
  b ∈ concat (map f l) ↔ ∃ a, a ∈ l ∧ b ∈ f a.
Proof.
  induction l as [|a rest IH]; simpl.
  - split; [by intros ?%elem_of_nil|by intros (? & ?%elem_of_nil & _)].
  - rewrite elem_of_app, IH. split.
    + intros [Hb|(a' & Hin & Hb)].
      * exists a. split; [by left|done].
      * exists a'. split; [by right|done].
    + intros (a' & [->|Hin]%elem_of_cons & Hb); [by left|].
      right. by exists a'.
Qed.

Lemma Proto_errors_of_key memberText env (schema : EnvSchema) key config :
  NoDup schema.*1 →
  (key, config) ∈ schema →
  filter (λ e, ValidationError.variable e = key)
    (Proto.runLoop memberText env schema).1
  = Proto.checkEntry memberText (Proto.get env key) key config.
Proof.
  rewrite Proto_runLoop_errors.
  induction schema as [|[k c] rest IH]; intros Hnd Hin; simpl in *.
  - by apply elem_of_nil in Hin.
  - apply NoDup_cons in Hnd as [Hfresh Hnd].
    rewrite filter_app.
    assert (∀ k', k' ∉ rest.*1 →
            filter (λ e, ValidationError.variable e = k')
              (concat (map (λ entry, Proto.checkEntry memberText
                                       (Proto.get env entry.1) entry.1
                                       entry.2) rest)) = []) as Hnone.
    { intros k' Hk'. apply filter_none, Forall_forall.
      intros e ([k2 c2] & Hentry & He)%elem_of_concat_map Hvar.
      apply Proto_checkEntry_variable in He. simpl in He.
      apply Hk'. rewrite <- Hvar, He.
      by apply (list_elem_of_fmap_2 fst _ (k2, c2)). }
    apply elem_of_cons in Hin as [Heq|Hin].
    + injection Heq as <- <-.
      rewrite filter_all; last first.
      { apply Forall_forall. intros e He.
        by eapply Proto_checkEntry_variable. }
      by rewrite Hnone, app_nil_r.
    + rewrite filter_none; [by apply IH|].
      apply Forall_forall. intros e He Hvar.
      apply Proto_checkEntry_variable in He. apply Hfresh.
      rewrite <- He, Hvar. by apply (list_elem_of_fmap_2 fst _ (key, config)).
Qed.

(** X21. With throwing switched off and pairwise distinct schema keys,
    [validateEnv] returns a result whose [values] object has one own
    property per schema key other than [__proto__] and no other. The
    property of a key holds the environment's own non-empty string for
    it; or, when the environment object has no own property of that name
    and inherits one from [Object.prototype], that inherited member; or
    else the default of the key, [undefined] when there is none. The
    environment is [options.env], and [process.env] when that is not
    given. *)
Theorem validateEnv_values_at_run_time memberText process_env
    (schema : EnvSchema) envOpt :
  NoDup schema.*1 →
  ∃ result,
    Proto.validateEnv memberText process_env schema
      (Proto.mkOptions envOpt (Some false))
    = ([], Return result)
    ∧ dom (Proto.resultValues result)
      = list_to_set (filter (λ key, key ≠ "__proto__") schema.*1)
    ∧ ∀ key config, (key, config) ∈ schema → key ≠ "__proto__" →
        (∀ s, ownValue (default process_env envOpt) key s →
           Proto.resultValues result !! key = Some (Proto.Str s))
        ∧ (inheritedBy (default process_env envOpt) key →
           Proto.resultValues result !! key = Some (Proto.Member key))
        ∧ (¬ providedBy (default process_env envOpt) key →
           Proto.resultValues result !! key
           = Some (match EnvVarSchema.default config with
                   | Some d => Proto.Str d
                   | None => Proto.Undefined
                   end)).
Proof.
  intros Hnd. eexists. split; [by apply Proto_validateEnv_nothrow|].
  cbn [Proto.resultValues Proto.env].
  unfold Proto.runLoop. rewrite Proto_fold_loopBody. cbn [snd].
  split.
  { rewrite Proto_fold_dom. set_solver. }
  intros key config Hin Hkey.
  rewrite (Proto_fold_lookup _ _ _ _ _ Hnd Hin Hkey).
  destruct (Proto_effectiveValue_cases (default process_env envOpt) key config)
    as (Hown & Hinh & Hnone).
  split; [|split].
  - intros s Hs. by rewrite (Hown s Hs).
  - intros H. by rewrite (Hinh H).
  - intros H. by rewrite (Hnone H).
Qed.

Lemma validateEnv_values_at_run_time_witness :
  ∃ result,
    Proto.validateEnv (λ _, "") Proto.emptyEnv
      [("toString", EnvVarSchema.mk None None None (Some "d") None);
       ("PORT", EnvVarSchema.mk None None None (Some "3000") None)]
      (Proto.mkOptions (Some (Proto.mkEnv {["PORT" := Some ""]} true))
         (Some false))
    = ([], Return result)
    ∧ dom (Proto.resultValues result)
      = list_to_set
          (filter (λ key, key ≠ "__proto__")
             [("toString", EnvVarSchema.mk None None None (Some "d") None);
              ("PORT", EnvVarSchema.mk None None None (Some "3000") None)].*1)
    ∧ ∀ key config,
        (key, config)
        ∈ [("toString", EnvVarSchema.mk None None None (Some "d") None);
           ("PORT", EnvVarSchema.mk None None None (Some "3000") None)] →
        key ≠ "__proto__" →
        (∀ s, ownValue (Proto.mkEnv {["PORT" := Some ""]} true) key s →
           Proto.resultValues result !! key = Some (Proto.Str s))
        ∧ (inheritedBy (Proto.mkEnv {["PORT" := Some ""]} true) key →
           Proto.resultValues result !! key = Some (Proto.Member key))
        ∧ (¬ providedBy (Proto.mkEnv {["PORT" := Some ""]} true) key →
           Proto.resultValues result !! key
           = Some (match EnvVarSchema.default config with
                   | Some d => Proto.Str d
                   | None => Proto.Undefined
                   end)).
Proof.
  apply (validateEnv_values_at_run_time (λ _, "") Proto.emptyEnv
           [("toString", EnvVarSchema.mk None None None (Some "d") None);
            ("PORT", EnvVarSchema.mk None None None (Some "3000") None)]
           (Some (Proto.mkEnv {["PORT" := Some ""]} true))).
  apply NoDup_cons. split; [|apply NoDup_singleton].
  intros H%list_elem_of_singleton. discriminate.
Defined.

(** X22. With throwing switched off and pairwise distinct schema keys,
    the errors of [validateEnv] that name a given variable are: the one
    [Missing environment variable] error when the variable is required,
    nothing is provided and there is no default; otherwise, for a
    non-empty allowed list, the one [Invalid value] error that quotes the
    own non-empty string outside the list, or the text of the member
    inherited from [Object.prototype], or, when nothing is provided, the
    default outside the list; and no error in every other case. Each
    error carries the description and the allowed list of the
    variable. *)
Theorem validateEnv_errors_per_variable memberText process_env
    (schema : EnvSchema) envOpt key config :
  NoDup schema.*1 →
  (key, config) ∈ schema →
  ∃ result,
    Proto.validateEnv memberText process_env schema
      (Proto.mkOptions envOpt (Some false))
    = ([], Return result)
    ∧ (missingIn (default process_env envOpt) key config →
       filter (λ e, ValidationError.variable e = key) (Proto.errors result)
       = [ValidationError.mk key ("Missing environment variable: " +:+ key)
            (EnvVarSchema.description config) (EnvVarSchema.allowed config)])
    ∧ (∀ allowed,
         EnvVarSchema.allowed config = Some allowed → allowed ≠ [] →
         (∀ s, ownValue (default process_env envOpt) key s → s ∉ allowed →
            filter (λ e, ValidationError.variable e = key)
              (Proto.errors result)
            = [ValidationError.mk key
                 ("Invalid value for " +:+ key +:+ ": " +:+ JS.dquote +:+ s
                  +:+ JS.dquote)
                 (EnvVarSchema.description config) (Some allowed)])
         ∧ (inheritedBy (default process_env envOpt) key →
            filter (λ e, ValidationError.variable e = key)
              (Proto.errors result)
            = [ValidationError.mk key
                 ("Invalid value for " +:+ key +:+ ": " +:+ JS.dquote
                  +:+ memberText key +:+ JS.dquote)
                 (EnvVarSchema.description config) (Some allowed)])
         ∧ (∀ d, ¬ providedBy (default process_env envOpt) key →
            EnvVarSchema.default config = Some d → d ∉ allowed →
            filter (λ e, ValidationError.variable e = key)
              (Proto.errors result)
            = [ValidationError.mk key
                 ("Invalid value for " +:+ key +:+ ": " +:+ JS.dquote +:+ d
                  +:+ JS.dquote)
                 (EnvVarSchema.description config) (Some allowed)]))
    ∧ (¬ missingIn (default process_env envOpt) key config →
       ¬ outsideAllowed (default process_env envOpt) key config →
       filter (λ e, ValidationError.variable e = key) (Proto.errors result)
       = []).
Proof.
  intros Hnd Hin. eexists. split; [by apply Proto_validateEnv_nothrow|].
  cbn [Proto.errors Proto.env].
  rewrite (Proto_errors_of_key _ _ _ _ _ Hnd Hin).
  set (E := default process_env envOpt).
  destruct (Proto_get_cases E key)
    as [(s & Hown & ->)|[(Hinh & ->)|(Hnone & Hget)]].
  - rewrite (Proto_checkEntry_own _ _ _ _ (proj2 Hown)).
    split; [|split].
    + intros (_ & Hno & _). destruct Hno. left. by exists s.
    + intros allowed Hal Hne. rewrite Hal. split; [|split].
      * intros s' Hs' Hmem. rewrite <- (ownValue_unique _ _ _ _ Hown Hs').
        rewrite <- (ownValue_unique _ _ _ _ Hown Hs') in Hmem.
        rewrite bool_decide_eq_true_2 by done.
        unfold invalidError. by rewrite Hal.
      * intros H. by destruct (ownValue_not_inherited _ _ _ Hown).
      * intros d Hno. destruct Hno. left. by exists s.
    + intros _ Hout.
      destruct (EnvVarSchema.allowed config) as [allowed|] eqn:Hal; [|done].
      rewrite bool_decide_eq_false_2; [done|].
      intros [Hne Hmem]. apply Hout. exists allowed.
      split; [done|]. split; [done|]. left. by exists s.
  - rewrite Proto_checkEntry_member.
    split; [|split].
    + intros (_ & Hno & _). destruct Hno. by right.
    + intros allowed Hal Hne. rewrite Hal. split; [|split].
      * intros s Hs. by destruct (ownValue_not_inherited _ _ _ Hs).
      * intros _. rewrite bool_decide_eq_true_2 by done.
        unfold invalidError. by rewrite Hal.
      * intros d Hno. destruct Hno. by right.
    + intros _ Hout.
      destruct (EnvVarSchema.allowed config) as [allowed|] eqn:Hal; [|done].
      rewrite bool_decide_eq_false_2; [done|].
      intros Hne. apply Hout. exists allowed.
      split; [done|]. split; [done|]. right. by left.
  - rewrite (Proto_checkEntry_blank _ _ _ _ Hget).
    split; [|split].
    + intros (Hreq & _ & Hdef). rewrite Hdef.
      by rewrite bool_decide_eq_true_2.
    + intros allowed Hal Hne. split; [|split].
      * intros s Hs. destruct Hnone. left. by exists s.
      * intros H. destruct Hnone. by right.
      * intros d _ Hdef Hmem. rewrite Hdef, Hal.
        rewrite bool_decide_eq_true_2 by done.
        unfold invalidError. by rewrite Hal.
    + intros Hmiss Hout.
      destruct (EnvVarSchema.default config) as [d|] eqn:Hdef.
      * destruct (EnvVarSchema.allowed config) as [allowed|] eqn:Hal;
          [|done].
        rewrite bool_decide_eq_false_2; [done|].
        intros [Hne Hmem]. apply Hout. exists allowed.
        split; [done|]. split; [done|]. right. right.
        split; [done|]. by exists d.
      * rewrite bool_decide_eq_false_2; [done|].
        intros Hreq. by apply Hmiss.
Qed.

Lemma validateEnv_errors_per_variable_witness :
  ∃ result,
    Proto.validateEnv (λ name, "function " +:+ name) Proto.emptyEnv
      toString_schema (Proto.mkOptions None (Some false))
    = ([], Return result)
    ∧ filter (λ e, ValidationError.variable e = "toString")
        (Proto.errors result)
      = [ValidationError.mk "toString"
           ("Invalid value for " +:+ "toString" +:+ ": " +:+ JS.dquote
            +:+ ("function " +:+ "toString") +:+ JS.dquote)
           None (Some ["d"])].
Proof.
  destruct (validateEnv_errors_per_variable (λ name, "function " +:+ name)
              Proto.emptyEnv toString_schema None "toString"
              (EnvVarSchema.mk None None None (Some "d") (Some ["d"])))
    as (result & Hrun & _ & Hallowed & _).
  - apply NoDup_cons. split; [|apply NoDup_singleton].
    intros H%list_elem_of_singleton. discriminate.
  - left.
  - exists result. split; [exact Hrun|].
    apply (proj1 (proj2 (Hallowed ["d"] eq_refl ltac:(discriminate)))).
    split; [reflexivity|]. split; [reflexivity|]. compute_done.
Defined.

Lemma Proto_checkEntry_nil_iff memberText E key config :
  Proto.checkEntry memberText (Proto.get E key) key config = []
  ↔ ¬ missingIn E key config ∧ ¬ outsideAllowed E key config.
Proof.
  destruct (Proto_get_cases E key)
    as [(s & Hown & ->)|[(Hinh & ->)|(Hnone & Hget)]].
  - rewrite (Proto_checkEntry_own _ _ _ _ (proj2 Hown)).
    assert (¬ missingIn E key config) as Hmiss.
    { intros (_ & Hno & _). apply Hno. left. by exists s. }
    destruct (EnvVarSchema.allowed config) as [allowed|] eqn:Hal.
    + destruct (decide (allowed ≠ [] ∧ s ∉ allowed)) as [Hd|Hd].
      * rewrite (bool_decide_eq_true_2 _ Hd). split; [done|].
        intros [_ Hout]. destruct Hout. exists allowed.
        split; [done|]. split; [apply Hd|]. left. exists s.
        split; [done|apply Hd].
      * rewrite (bool_decide_eq_false_2 _ Hd). split; [|done].
        intros _. split; [done|].
        intros (allowed' & Hal' & Hne & Hcases).
        rewrite Hal in Hal'. injection Hal' as <-.
        destruct Hcases as [(s' & Hs' & Hmem)|[Hinh|(Hno & _)]].
        -- rewrite <- (ownValue_unique _ _ _ _ Hown Hs') in Hmem.
           by apply Hd.
        -- by destruct (ownValue_not_inherited _ _ _ Hown).
        -- apply Hno. left. by exists s.
    + split; [|done]. intros _. split; [done|].
      intros (allowed & Hal' & _). congruence.
  - rewrite Proto_checkEntry_member.
    assert (¬ missingIn E key config) as Hmiss.
    { intros (_ & Hno & _). apply Hno. by right. }
    destruct (EnvVarSchema.allowed config) as [allowed|] eqn:Hal.
    + destruct (decide (allowed ≠ [])) as [Hd|Hd].
      * rewrite (bool_decide_eq_true_2 _ Hd). split; [done|].
        intros [_ Hout]. destruct Hout. exists allowed.
        split; [done|]. split; [done|]. right. by left.
      * rewrite (bool_decide_eq_false_2 _ Hd). split; [|done].
        intros _. split; [done|].
        intros (allowed' & Hal' & Hne & _).
        rewrite Hal in Hal'. injection Hal' as <-. by apply Hd.
    + split; [|done]. intros _. split; [done|].
      intros (allowed & Hal' & _). congruence.
  - rewrite (Proto_checkEntry_blank _ _ _ _ Hget).
    destruct (EnvVarSchema.default config) as [d|] eqn:Hdef.
    + assert (¬ missingIn E key config) as Hmiss.
      { intros (_ & _ & Hd). congruence. }
      destruct (EnvVarSchema.allowed config) as [allowed|] eqn:Hal.
      * destruct (decide (allowed ≠ [] ∧ d ∉ allowed)) as [Hd|Hd].
        -- rewrite (bool_decide_eq_true_2 _ Hd). split; [done|].
           intros [_ Hout]. destruct Hout. exists allowed.
           split; [done|]. split; [apply Hd|]. right. right.
           split; [done|]. exists d. split; [done|apply Hd].
        -- rewrite (bool_decide_eq_false_2 _ Hd). split; [|done].
           intros _. split; [done|].
           intros (allowed' & Hal' & Hne & Hcases).
           rewrite Hal in Hal'. injection Hal' as <-.
           destruct Hcases as [(s' & Hs' & _)|[Hinh|(_ & d' & Hd' & Hmem)]].
           ++ apply Hnone. left. by exists s'.
           ++ apply Hnone. by right.
           ++ rewrite Hdef in Hd'. injection Hd' as <-. by apply Hd.
      * split; [|done]. intros _. split; [done|].
        intros (allowed & Hal' & _). congruence.
    + assert (¬ outsideAllowed E key config) as Hout.
      { intros (allowed & _ & _ & [(s & Hs & _)|[Hinh|(_ & d & Hd & _)]]).
        - apply Hnone. left. by exists s.
        - apply Hnone. by right.
        - congruence. }
      destruct (decide (EnvVarSchema.required config = Some true))
        as [Hreq|Hreq].
      * rewrite (bool_decide_eq_true_2 _ Hreq). split; [done|].
        intros [Hmiss _]. by destruct Hmiss.
      * rewrite (bool_decide_eq_false_2 _ Hreq). split; [|done].
        intros _. split; [|done]. intros (Hr & _). by apply Hreq.
Qed.

Lemma concat_map_nil_iff {A B} (f : A → list B) (l : list A) :
  concat (map f l) = [] ↔ ∀ a, a ∈ l → f a = [].
Proof.
  induction l as [|a rest IH]; simpl.
  - split; [by intros _ ? ?%elem_of_nil|done].
  - rewrite app_nil, IH. split.
    + intros [H1 H2] e [->|Hin]%elem_of_cons; [done|by apply H2].
    + intros H. split; [apply H; by left|].
      intros e He. apply H. by right.
Qed.

(** X2. [isEnvValid] writes nothing, does not throw, and returns [true]
    exactly when no variable of the schema is required with nothing
    provided and no default, and none has a resolved value outside its
    non-empty allowed list. A name that the environment object only
    inherits from [Object.prototype] counts as provided, with a value
    that is in no allowed list. *)
Theorem isEnvValid_iff memberText process_env (schema : EnvSchema) envOpt
    throwOnError :
  ∃ b,
    Proto.isEnvValid memberText process_env schema
      (Proto.mkOptions envOpt throwOnError)
    = ([], Return b)
    ∧ (b = true
       ↔ ∀ key config, (key, config) ∈ schema →
           ¬ missingIn (default process_env envOpt) key config
           ∧ ¬ outsideAllowed (default process_env envOpt) key config).
Proof.
  eexists. split.
  { unfold Proto.isEnvValid.
    rewrite (Proto_validateEnv_nothrow memberText process_env schema
               (Proto.with_throwOnError (Proto.mkOptions envOpt throwOnError)
                  false)) by done.
    reflexivity. }
  cbn [Proto.valid Proto.env Proto.with_throwOnError].
  rewrite bool_decide_eq_true, length_zero_iff_nil, Proto_runLoop_errors,
    concat_map_nil_iff.
  split.
  - intros H key config Hin. apply (Proto_checkEntry_nil_iff memberText).
    apply (H (key, config) Hin).
  - intros H [key config] Hin. apply Proto_checkEntry_nil_iff. by apply H.
Qed.

(** X6. For a key that is not a key of the schema, [getEnv] writes
    nothing, does not throw, and returns what the empty [values] object
    yields for that name: the member inherited from [Object.prototype]
    when the key names one, and [undefined] otherwise. *)
Theorem getEnv_outside_schema memberText process_env (schema : EnvSchema) key
    options :
  key ∉ schema.*1 →
  Proto.getEnv memberText process_env schema key options
  = ([], Return (if bool_decide (key ∈ Proto.memberNames)
                 then Proto.Member key else Proto.Undefined)).
Proof.
  intros Hkey. unfold Proto.getEnv.
  rewrite (Proto_validateEnv_nothrow memberText process_env schema
             (Proto.with_throwOnError options false)) by done.
  cbn. unfold Proto.getValue, Proto.runLoop.
  rewrite Proto_fold_loopBody. cbn [snd].
  rewrite (Proto_fold_lookup_notin _ _ _ _ Hkey), lookup_empty.
  reflexivity.
Qed.

Lemma getEnv_outside_schema_witness :
  Proto.getEnv (λ _, "") Proto.emptyEnv scenario4_schema "valueOf"
    (Proto.mkOptions None None)
  = ([], Return (if bool_decide ("valueOf" ∈ Proto.memberNames)
                 then Proto.Member "valueOf" else Proto.Undefined)).
Proof.
  apply (getEnv_outside_schema (λ _, "") Proto.emptyEnv scenario4_schema
           "valueOf" (Proto.mkOptions None None)).
  intros H%list_elem_of_singleton. discriminate.
Defined.

Lemma Proto_loopBody_agree memberText E1 E2 st
    (entry : string * EnvVarSchema.t) :
  (¬ providedBy E1 entry.1 ∧ ¬ providedBy E2 entry.1)
  ∨ (Proto.own E1 !! entry.1 = Proto.own E2 !! entry.1
     ∧ Proto.plain E1 = Proto.plain E2) →
  Proto.loopBody memberText E1 st entry = Proto.loopBody memberText E2 st entry.
Proof.
  destruct st as [errors values], entry as [key config]. simpl.
  intros [[H1 H2]|[Hown Hplain]].
  - destruct (Proto_effectiveValue_cases E1 key config) as (_ & _ & He1).
    destruct (Proto_effectiveValue_cases E2 key config) as (_ & _ & He2).
    rewrite (He1 H1), (He2 H2).
    destruct (Proto_get_cases E1 key)
      as [(s & Hs & _)|[(Hinh & _)|(_ & Hget1)]];
      [destruct H1; left; by exists s|destruct H1; by right|].
    destruct (Proto_get_cases E2 key)
      as [(s & Hs & _)|[(Hinh & _)|(_ & Hget2)]];
      [destruct H2; left; by exists s|destruct H2; by right|].
    by rewrite (Proto_checkEntry_blank _ _ _ _ Hget1),
      (Proto_checkEntry_blank _ _ _ _ Hget2).
  - unfold Proto.get. by rewrite Hown, Hplain.
Qed.

(** X23. An own property holding the empty string, one holding
    [undefined], and a property that is missing under a name the
    environment object does not inherit are interchangeable: two
    environments that, on every schema key, either both provide nothing
    in one of these three ways or have the same own property and the same
    prototype, make [validateEnv] write the same and complete the same,
    with or without [throwOnError]. *)
Theorem blank_undefined_and_absent_agree memberText process_env
    (schema : EnvSchema) (E1 E2 : Proto.Env) throwOnError :
  (∀ key, key ∈ schema.*1 →
     (¬ providedBy E1 key ∧ ¬ providedBy E2 key)
     ∨ (Proto.own E1 !! key = Proto.own E2 !! key
        ∧ Proto.plain E1 = Proto.plain E2)) →
  Proto.validateEnv memberText process_env schema
    (Proto.mkOptions (Some E1) throwOnError)
  = Proto.validateEnv memberText process_env schema
      (Proto.mkOptions (Some E2) throwOnError).
Proof.
  intros Hagree. unfold Proto.validateEnv.
  change (default process_env
            (Proto.env (Proto.mkOptions (Some E1) throwOnError))) with E1.
  change (default process_env
            (Proto.env (Proto.mkOptions (Some E2) throwOnError))) with E2.
  assert (Proto.runLoop memberText E1 schema
          = Proto.runLoop memberText E2 schema) as ->; [|done].
  unfold Proto.runLoop.
  generalize (@nil ValidationError.t, (∅ : Proto.values)).
  induction schema as [|[key config] rest IH]; intros st; simpl; [done|].
  rewrite (Proto_loopBody_agree memberText E1 E2 st (key, config)).
  - apply IH. intros k Hk. apply Hagree. by right.
  - apply Hagree. by left.
Qed.

Lemma blank_undefined_and_absent_agree_witness :
  Proto.validateEnv (λ _, "") Proto.emptyEnv scenario4_schema
    (Proto.mkOptions (Some (Proto.mkEnv {["PORT" := Some ""]} true)) None)
  = Proto.validateEnv (λ _, "") Proto.emptyEnv scenario4_schema
      (Proto.mkOptions (Some Proto.emptyEnv) None).
Proof.
  apply (blank_undefined_and_absent_agree (λ _, "") Proto.emptyEnv
           scenario4_schema (Proto.mkEnv {["PORT" := Some ""]} true)
           Proto.emptyEnv None).
  intros key ->%list_elem_of_singleton. left. split.
  - intros [(s & Hs & Hne)|(Hs & _)]; [|discriminate].
    injection Hs as <-. by apply Hne.
  - intros [(s & Hs & _)|(_ & _ & Hm)]; [discriminate|].
    revert Hm. compute_done.
Defined.

(** * Further properties of the validator *)

Lemma validateEnv_return_inv process_env (schema : EnvSchema) options out
    result :
  validateEnv process_env schema options = (out, Return result) →
  out = []
  ∧ ValidationResult.errors result
    = (runLoop (optEnv process_env options) schema).1
  ∧ ValidationResult.values result
    = (runLoop (optEnv process_env options) schema).2
  ∧ ValidationResult.valid result
    = bool_decide (ValidationResult.errors result = []).
Proof.
  unfold validateEnv.
  destruct (runLoop _ _) as [errors values]. simpl.
  destruct (negb (bool_decide (length errors = 0)) && optThrowOnError options);
    [discriminate|].
  intros [= <- <-]. simpl. repeat split. by destruct errors.
Qed.

(** X1. Whenever [validateEnv] returns, the variables of its errors, in
    the order of the [errors] array, form a subsequence of the schema's
    keys in the order in which [Object.entries(schema)] yields them: the
    integer-like keys first, in ascending order, then the other keys as
    declared. *)
Theorem validateEnv_errors_in_schema_order process_env (schema : EnvSchema)
    options out result :
  validateEnv process_env schema options = (out, Return result) →
  sublist (ValidationError.variable <$> ValidationResult.errors result)
          schema.*1.
Proof.
  intros (_ & -> & _)%validateEnv_return_inv.
  rewrite runLoop_errors. apply errors_variables_sublist.
Qed.

Lemma validateEnv_errors_in_schema_order_witness :
  sublist
    (ValidationError.variable
       <$> ValidationResult.errors
             (ValidationResult.mk false
                [missingError "1"
                   (EnvVarSchema.mk (Some true) None None None None);
                 missingError "DATABASE_URL"
                   (EnvVarSchema.mk (Some true) None None None None)]
                {["1" := None; "DATABASE_URL" := None]}))
    integerKey_schema.*1.
Proof.
  apply (validateEnv_errors_in_schema_order ∅ integerKey_schema
           (nonThrowing ∅) []).
  vm_compute. reflexivity.
Defined.

Lemma checkEntry_nil_iff value key config :
  checkEntry value key config = []
  ↔ ¬ missingReason value config
    ∧ ¬ enumReason (effectiveValue value config) config.
Proof.
  split.
  - intros Hnil. split.
    + intros (Hreq & Hval & Hdef).
      by rewrite (checkEntry_missing _ key _ Hreq Hval Hdef) in Hnil.
    + intros (v & allowed & Heff & Hal & Hne & Hmem).
      by rewrite (checkEntry_invalid _ key _ _ _ Hal Hne Heff Hmem) in Hnil.
  - intros [Hmiss Henum].
    destruct (checkEntry value key config) as [|e l] eqn:Hce; [done|].
    assert (e ∈ checkEntry value key config) as He by (rewrite Hce; by left).
    apply checkEntry_cases in He as [(_ & H & _)|(v & _ & Heff & H)].
    + by destruct Hmiss.
    + destruct Henum. by rewrite Heff.
Qed.

Lemma errors_nil_iff env (schema : EnvSchema) :
  concat (map (entryErrors env) schema) = []
  ↔ ∀ entry, entry ∈ schema → entryErrors env entry = [].
Proof.
  induction schema as [|entry rest IH]; simpl.
  - split; [by intros _ ? ?%elem_of_nil|done].
  - rewrite app_nil, IH. split.
    + intros [H1 H2] e [->|Hin]%elem_of_cons; [done|by apply H2].
    + intros H. split; [apply H; by left|].
      intros e He. apply H. by right.
Qed.





Lemma fold_set_union env (schema : EnvSchema) (values : JS.record) :
  fold_left (λ vs entry,
               JS.set vs entry.1 (effectiveValue (JS.get env entry.1) entry.2))
            schema values
  = fold_left (λ vs entry,
                 JS.set vs entry.1
                   (effectiveValue (JS.get env entry.1) entry.2))
              schema ∅
    ∪ values.
Proof.
  revert values.
  induction schema as [|[key config] rest IH]; intros values; simpl.
  - by rewrite (left_id_L ∅ (∪)).
  - rewrite IH. rewrite (IH (JS.set ∅ _ _)). unfold JS.set.
    rewrite <- (assoc_L (∪)). f_equal.
    rewrite insert_empty. by rewrite <- insert_union_singleton_l.
Qed.

Lemma runLoop_app env (schema1 schema2 : EnvSchema) :
  runLoop env (schema1 ++ schema2)
  = ((runLoop env schema1).1 ++ (runLoop env schema2).1,
     (runLoop env schema2).2 ∪ (runLoop env schema1).2).
Proof.
  unfold runLoop. rewrite !fold_loopBody. simpl.
  rewrite map_app, concat_app, fold_left_app. f_equal.
  apply fold_set_union.
Qed.

(** X4. For two schemas that have no key in common, and keys pairwise
    distinct within each, validating the schema whose entries are those
    of the first followed by those of the second gives the errors of the
    first followed by those of the second, is valid exactly when both
    are, and resolves every variable as the schema that names it does:
    the two [values] objects have no property in common and the result
    holds the properties of both. *)
Theorem validateEnv_app process_env (schema1 schema2 : EnvSchema) options :
  NoDup (schema1 ++ schema2).*1 →
  ValidateOptions.throwOnError options = Some false →
  ∃ r1 r2 r,
    validateEnv process_env schema1 options = ([], Return r1)
    ∧ validateEnv process_env schema2 options = ([], Return r2)
    ∧ validateEnv process_env (schema1 ++ schema2) options = ([], Return r)
    ∧ ValidationResult.errors r
      = ValidationResult.errors r1 ++ ValidationResult.errors r2
    ∧ ValidationResult.valid r
      = ValidationResult.valid r1 && ValidationResult.valid r2
    ∧ dom (ValidationResult.values r1) ## dom (ValidationResult.values r2)
    ∧ ValidationResult.values r
      = ValidationResult.values r1 ∪ ValidationResult.values r2.
Proof.
  intros Hnd Hopt.
  assert (optThrowOnError options = false) as Hthrow.
  { unfold optThrowOnError. by rewrite Hopt. }
  eexists _, _, _.
  split; [by apply validateEnv_nothrow|].
  split; [by apply validateEnv_nothrow|].
  split; [by apply validateEnv_nothrow|].
  cbn [ValidationResult.errors ValidationResult.valid ValidationResult.values].
  assert (dom (runLoop (optEnv process_env options) schema1).2
          ## dom (runLoop (optEnv process_env options) schema2).2) as Hdisj.
  { rewrite !runLoop_values_dom. rewrite fmap_app in Hnd.
    apply NoDup_app in Hnd as (_ & Hdisj & _).
    intros key H1%elem_of_list_to_set H2%elem_of_list_to_set.
    by apply (Hdisj key). }
  rewrite runLoop_app. cbn [fst snd].
  split; [done|]. split.
  { rewrite length_app.
    destruct (runLoop (optEnv process_env options) schema1).1; [done|].
    done. }
  split; [done|].
  apply map_union_comm. by apply map_disjoint_dom.
Qed.

Lemma validateEnv_app_witness :
  ∃ r1 r2 r,
    validateEnv ∅ scenario1_schema (nonThrowing ∅) = ([], Return r1)
    ∧ validateEnv ∅ scenario4_schema (nonThrowing ∅) = ([], Return r2)
    ∧ validateEnv ∅ (scenario1_schema ++ scenario4_schema) (nonThrowing ∅)
      = ([], Return r)
    ∧ ValidationResult.errors r
      = ValidationResult.errors r1 ++ ValidationResult.errors r2
    ∧ ValidationResult.valid r
      = ValidationResult.valid r1 && ValidationResult.valid r2
    ∧ dom (ValidationResult.values r1) ## dom (ValidationResult.values r2)
    ∧ ValidationResult.values r
      = ValidationResult.values r1 ∪ ValidationResult.values r2.
Proof.
  apply (validateEnv_app ∅ scenario1_schema scenario4_schema (nonThrowing ∅)).
  - apply NoDup_cons. split; [|apply NoDup_singleton].
    intros H%list_elem_of_singleton. discriminate.
  - reflexivity.
Defined.






(** * The argument parser of the command line *)

Lemma list_two_step_ind (P : list string → Prop) :
  P [] →
  (∀ arg rest, P rest → P (tail rest) → P (arg :: rest)) →
  ∀ args, P args.
Proof.
  intros Hnil Hstep args.
  assert (P args ∧ P (tail args)) as [H _]; [|exact H].
  induction args as [|arg rest [IH1 IH2]]; simpl; [by split|].
  split; [by apply Hstep|exact IH1].
Qed.

Lemma parseLoop_cons_plain r arg rest :
  arg ∉ Cli.valueFlags →
  Cli.parseLoop r (arg :: rest) = Cli.parseLoop (Cli.flagStep r arg) rest.
Proof.
  intros Hflag. unfold Cli.valueFlags in Hflag.
  rewrite !not_elem_of_cons in Hflag.
  destruct Hflag as (H1 & H2 & H3 & H4 & _).
  destruct rest as [|next rest']; [done|]. cbn [Cli.parseLoop].
  by rewrite !(bool_decide_eq_false_2 (arg = _)) by done.
Qed.

(** X20. A run of arguments without value options can be parsed first:
    the loop over [args1 ++ args2] ends in the state that the loop over
    [args2] reaches from the state the loop over [args1] ends in. *)
Theorem parseLoop_app_plain r args1 args2 :
  (∀ a, a ∈ args1 → a ∉ Cli.valueFlags) →
  Cli.parseLoop r (args1 ++ args2)
  = Cli.parseLoop (Cli.parseLoop r args1) args2.
Proof.
  revert r. induction args1 as [|arg rest IH]; intros r Hplain; [done|].
  rewrite <- app_comm_cons.
  rewrite !parseLoop_cons_plain by (apply Hplain; by left).
  apply IH. intros a Ha. apply Hplain. by right.
Qed.

Lemma parseLoop_app_plain_witness :
  Cli.parseLoop (Cli.initial "/app") (["check"; "--group"] ++ ["--cwd"; "/srv"])
  = Cli.parseLoop (Cli.parseLoop (Cli.initial "/app") ["check"; "--group"])
      ["--cwd"; "/srv"].
Proof.
  apply (parseLoop_app_plain (Cli.initial "/app") ["check"; "--group"]
           ["--cwd"; "/srv"]).
  apply (proj1 (Forall_forall _ _)). compute_done.
Defined.

Section FieldUnchanged.
Context {A : Type} (f : Cli.CliArgs → A) (flag : string).
Hypothesis Hstep : ∀ r arg, arg ≠ flag → f (Cli.flagStep r arg) = f r.
Hypothesis Hschema :
  ∀ r v, flag ≠ "--schema" → f (Cli.set_schema r v) = f r.
Hypothesis Hcwd : ∀ r v, flag ≠ "--cwd" → f (Cli.set_cwd r v) = f r.
Hypothesis HmdFile :
  ∀ r v, flag ≠ "--md-file" → f (Cli.set_mdFile r v) = f r.
Hypothesis HenvFile :
  ∀ r v, flag ≠ "--env-file" → f (Cli.set_envFile r v) = f r.

Lemma parseLoop_field_unchanged args :
  ∀ r, flag ∉ args → f (Cli.parseLoop r args) = f r.
Proof.
  induction args as [|arg rest IH1 IH2] using list_two_step_ind;
    intros r Hflag; [done|].
  apply not_elem_of_cons in Hflag as [Hne Hrest].
  assert (f (Cli.parseLoop (Cli.flagStep r arg) rest) = f r) as Hplain.
  { rewrite IH1 by done. apply Hstep. congruence. }
  destruct rest as [|next rest']; [exact Hplain|].
  apply not_elem_of_cons in Hrest as [_ Hrest'].
  cbn [Cli.parseLoop]. simpl in IH2.
  repeat match goal with
  | |- context [bool_decide (arg = ?s) && _] =>
      destruct (bool_decide_reflect (arg = s)) as [->|?];
      cbn [andb];
      [destruct (bool_decide (next ≠ ""));
       [rewrite IH2 by done; auto|]|]
  end; exact Hplain.
Qed.
End FieldUnchanged.

Lemma flagStep_cases r arg :
  Cli.flagStep r arg = Cli.set_includeComments r false
  ∨ Cli.flagStep r arg = Cli.set_groupByRequired r true
  ∨ Cli.flagStep r arg = Cli.set_command r "help"
  ∨ Cli.flagStep r arg = Cli.set_command r "version"
  ∨ (Cli.flagStep r arg = Cli.set_command r arg
     ∧ Cli.startsWith arg "-" = false)
  ∨ Cli.flagStep r arg = r.
Proof.
  unfold Cli.flagStep.
  repeat (case_match; [naive_solver|]); try naive_solver.
  case_match; [|naive_solver].
  right. right. right. right. left. split; [done|].
  by destruct (Cli.startsWith arg "-").
Qed.

Lemma parseLoop_initial_defaults process_cwd (args : list string) :
  ("--schema" ∉ args → Cli.schema (Cli.parseArgs process_cwd args) = None)
  ∧ ("--cwd" ∉ args → Cli.cwd (Cli.parseArgs process_cwd args) = process_cwd)
  ∧ ("--md-file" ∉ args →
     Cli.mdFile (Cli.parseArgs process_cwd args) = "ENVIRONMENT.md")
  ∧ ("--env-file" ∉ args →
     Cli.envFile (Cli.parseArgs process_cwd args) = ".env.example")
  ∧ ("--no-comments" ∉ args →
     Cli.includeComments (Cli.parseArgs process_cwd args) = true)
  ∧ ("--group" ∉ args →
     Cli.groupByRequired (Cli.parseArgs process_cwd args) = false).
Proof.
  unfold Cli.parseArgs.
  assert (∀ (A : Type) (f : Cli.CliArgs → A) flag,
            (∀ r arg, arg ≠ flag → f (Cli.flagStep r arg) = f r) →
            (∀ r v, flag ≠ "--schema" → f (Cli.set_schema r v) = f r) →
            (∀ r v, flag ≠ "--cwd" → f (Cli.set_cwd r v) = f r) →
            (∀ r v, flag ≠ "--md-file" → f (Cli.set_mdFile r v) = f r) →
            (∀ r v, flag ≠ "--env-file" → f (Cli.set_envFile r v) = f r) →
            flag ∉ args →
            f (Cli.parseLoop (Cli.initial process_cwd) args)
            = f (Cli.initial process_cwd)) as Hkeep.
  { intros A f flag H1 H2 H3 H4 H5 Hflag.
    by apply (parseLoop_field_unchanged f flag). }
  repeat split; intros Hflag;
    (erewrite Hkeep; [reflexivity| | | | | |exact Hflag]);
    try (intros r v _; reflexivity);
    try (intros r v Hne; by destruct Hne);
    intros r arg Hne; unfold Cli.flagStep;
    repeat (case_match; [try reflexivity|]); try reflexivity;
    match goal with
    | H : bool_decide _ = true |- _ =>
        apply bool_decide_eq_true in H; by destruct Hne
    end.
Qed.

(** X7. [parseArgs] leaves an option at its default unless its flag
    occurs among the arguments: no schema path without [--schema], the
    working directory of the process without [--cwd], the default file
    names without [--md-file] and [--env-file], comments kept without
    [--no-comments] and no grouping without [--group]. *)
Theorem parseArgs_default_unless_flag process_cwd (args : list string) :
  ("--schema" ∉ args → Cli.schema (Cli.parseArgs process_cwd args) = None)
  ∧ ("--cwd" ∉ args → Cli.cwd (Cli.parseArgs process_cwd args) = process_cwd)
  ∧ ("--md-file" ∉ args →
     Cli.mdFile (Cli.parseArgs process_cwd args) = "ENVIRONMENT.md")
  ∧ ("--env-file" ∉ args →
     Cli.envFile (Cli.parseArgs process_cwd args) = ".env.example")
  ∧ ("--no-comments" ∉ args →
     Cli.includeComments (Cli.parseArgs process_cwd args) = true)
  ∧ ("--group" ∉ args →
     Cli.groupByRequired (Cli.parseArgs process_cwd args) = false).
Proof. exact (parseLoop_initial_defaults process_cwd args). Qed.

Lemma parseArgs_default_unless_flag_witness :
  Cli.cwd (Cli.parseArgs "/app" ["check"; "--schema"; "s.js"; "--group"])
  = "/app".
Proof.
  apply (proj1 (proj2 (parseArgs_default_unless_flag "/app"
                         ["check"; "--schema"; "s.js"; "--group"]))).
  intros Hin. vm_compute in Hin.
  repeat (inversion Hin as [|? ? ? Hin']; clear Hin; rename Hin' into Hin).
Defined.

Lemma flagStep_includeComments r arg :
  Cli.includeComments (Cli.flagStep r arg)
  = Cli.includeComments r && negb (bool_decide (arg = "--no-comments")).
Proof.
  unfold Cli.flagStep.
  destruct (bool_decide (arg = "--no-comments")); simpl;
    [by rewrite andb_false_r|].
  rewrite andb_true_r. by repeat case_match.
Qed.

Lemma flagStep_groupByRequired r arg :
  Cli.groupByRequired (Cli.flagStep r arg)
  = Cli.groupByRequired r || bool_decide (arg = "--group").
Proof.
  unfold Cli.flagStep.
  destruct (bool_decide_reflect (arg = "--no-comments")) as [->|_]; simpl;
    [by rewrite orb_false_r|].
  destruct (bool_decide (arg = "--group")); simpl; [by rewrite orb_true_r|].
  rewrite orb_false_r. by repeat case_match.
Qed.

Lemma flagStep_command r arg :
  Cli.command (Cli.flagStep r arg)
  = if Cli.isHelpFlag arg then "help"
    else if Cli.isVersionFlag arg then "version"
    else if Cli.isPositional arg && bool_decide (Cli.command r = "")
         then arg
         else Cli.command r.
Proof.
  unfold Cli.flagStep, Cli.isHelpFlag, Cli.isVersionFlag, Cli.isPositional.
  destruct (bool_decide_reflect (arg = "--no-comments")) as [->|_]; [done|].
  destruct (bool_decide_reflect (arg = "--group")) as [->|_]; [done|].
  destruct (bool_decide (arg = "-h") || bool_decide (arg = "--help"));
    [done|].
  destruct (bool_decide (arg = "-v") || bool_decide (arg = "--version"));
    [done|].
  destruct (Cli.startsWith arg "-"); simpl; [done|].
  destruct (bool_decide_reflect (Cli.command r = "")) as [Hc|Hc]; simpl.
  - destruct (bool_decide_reflect (arg ≠ "")) as [Ha|Ha]; simpl; [done|].
    destruct (decide (arg = "")) as [->|]; [done|by destruct Ha].
  - by rewrite andb_false_r.
Qed.

Lemma bool_decide_elem_of_cons (x a : string) (l : list string) :
  bool_decide (x ∈ a :: l) = bool_decide (a = x) || bool_decide (x ∈ l).
Proof.
  apply eq_true_iff_eq.
  rewrite orb_true_iff, !bool_decide_eq_true, elem_of_cons. naive_solver.
Qed.

Lemma parseLoop_plain_includeComments (args : list string) :
  ∀ r, (∀ a, a ∈ args → a ∉ Cli.valueFlags) →
  Cli.includeComments (Cli.parseLoop r args)
  = Cli.includeComments r && negb (bool_decide ("--no-comments" ∈ args)).
Proof.
  induction args as [|arg rest IH]; intros r Hplain.
  - simpl. by rewrite andb_true_r.
  - rewrite parseLoop_cons_plain by (apply Hplain; by left).
    rewrite IH by (intros a Ha; apply Hplain; by right).
    rewrite flagStep_includeComments, bool_decide_elem_of_cons, negb_orb.
    by rewrite andb_assoc.
Qed.

Lemma parseLoop_plain_groupByRequired (args : list string) :
  ∀ r, (∀ a, a ∈ args → a ∉ Cli.valueFlags) →
  Cli.groupByRequired (Cli.parseLoop r args)
  = Cli.groupByRequired r || bool_decide ("--group" ∈ args).
Proof.
  induction args as [|arg rest IH]; intros r Hplain.
  - simpl. by rewrite orb_false_r.
  - rewrite parseLoop_cons_plain by (apply Hplain; by left).
    rewrite IH by (intros a Ha; apply Hplain; by right).
    rewrite flagStep_groupByRequired, bool_decide_elem_of_cons.
    by rewrite orb_assoc.
Qed.

Lemma isPositional_nonempty arg : Cli.isPositional arg = true → arg ≠ "".
Proof.
  unfold Cli.isPositional. intros [_ H]%andb_true_iff.
  by apply bool_decide_eq_true in H.
Qed.

Lemma parseLoop_plain_command (args : list string) :
  ∀ r, (∀ a, a ∈ args → a ∉ Cli.valueFlags) →
  Cli.command (Cli.parseLoop r args)
  = match last (List.filter (λ a, Cli.isHelpFlag a || Cli.isVersionFlag a)
                  args) with
    | Some f => if Cli.isHelpFlag f then "help" else "version"
    | None =>
        if bool_decide (Cli.command r = "")
        then default "" (head (List.filter Cli.isPositional args))
        else Cli.command r
    end.
Proof.
  induction args as [|arg rest IH]; intros r Hplain.
  - simpl. by case_bool_decide.
  - rewrite parseLoop_cons_plain by (apply Hplain; by left).
    rewrite IH by (intros a Ha; apply Hplain; by right).
    rewrite flagStep_command. cbn [List.filter].
    destruct (Cli.isHelpFlag arg) eqn:Hh; cbn [orb].
    { rewrite last_cons.
      destruct (last (List.filter _ rest)); [done|]. by rewrite Hh. }
    destruct (Cli.isVersionFlag arg) eqn:Hv.
    { rewrite last_cons.
      destruct (last (List.filter _ rest)); [done|]. by rewrite Hh. }
    destruct (last (List.filter _ rest)); [done|].
    destruct (Cli.isPositional arg) eqn:Hp; cbn [andb].
    + destruct (bool_decide_reflect (Cli.command r = "")) as [Hc|Hc].
      * rewrite bool_decide_eq_false_2; [done|].
        by apply isPositional_nonempty.
      * by rewrite bool_decide_eq_false_2.
    + done.
Qed.

(** X8. When none of the arguments is a value option, the result of
    [parseArgs] is determined by which flags occur, not by their order or
    number: comments are off exactly when [--no-comments] occurs,
    grouping is on exactly when [--group] occurs, the four valued options
    keep their defaults, and the command is [help] or [version] after the
    last such flag if there is one, else the first non-empty argument
    that does not start with a dash, else empty. *)
Theorem parseArgs_plain process_cwd (args : list string) :
  (∀ a, a ∈ args → a ∉ Cli.valueFlags) →
  Cli.parseArgs process_cwd args
  = Cli.mkCliArgs (Cli.commandOf args) None process_cwd "ENVIRONMENT.md"
      ".env.example"
      (negb (bool_decide ("--no-comments" ∈ args)))
      (bool_decide ("--group" ∈ args)).
Proof.
  intros Hplain.
  assert (∀ flag, flag ∈ Cli.valueFlags → flag ∉ args) as Hflags.
  { intros flag Hflag Hin. by apply (Hplain flag Hin). }
  destruct (parseLoop_initial_defaults process_cwd args)
    as (Hs & Hc & Hm & He & _).
  pose proof (parseLoop_plain_includeComments args (Cli.initial process_cwd)
                Hplain) as Hi.
  pose proof (parseLoop_plain_groupByRequired args (Cli.initial process_cwd)
                Hplain) as Hg.
  pose proof (parseLoop_plain_command args (Cli.initial process_cwd) Hplain)
    as Hcmd.
  specialize (Hs (Hflags "--schema" ltac:(set_solver))).
  specialize (Hc (Hflags "--cwd" ltac:(set_solver))).
  specialize (Hm (Hflags "--md-file" ltac:(set_solver))).
  specialize (He (Hflags "--env-file" ltac:(set_solver))).
  unfold Cli.parseArgs in *. unfold Cli.commandOf.
  destruct (Cli.parseLoop (Cli.initial process_cwd) args). simpl in *.
  by subst.
Qed.

Lemma parseArgs_plain_witness :
  Cli.parseArgs "/app" ["generate"; "--group"; "-h"; "check"]
  = Cli.mkCliArgs (Cli.commandOf ["generate"; "--group"; "-h"; "check"])
      None "/app" "ENVIRONMENT.md" ".env.example"
      (negb (bool_decide
               ("--no-comments" ∈ ["generate"; "--group"; "-h"; "check"])))
      (bool_decide ("--group" ∈ ["generate"; "--group"; "-h"; "check"])).
Proof.
  apply (parseArgs_plain "/app" ["generate"; "--group"; "-h"; "check"]).
  apply (proj1 (Forall_forall _ _)). compute_done.
Defined.

Lemma flagStep_valueFlag r flag :
  flag ∈ Cli.valueFlags → Cli.flagStep r flag = r.
Proof.
  unfold Cli.valueFlags. rewrite !elem_of_cons, elem_of_nil.
  intros [->|[->|[->|[->|[]]]]]; reflexivity.
Qed.

Lemma flagStep_empty r : Cli.flagStep r "" = r.
Proof.
  unfold Cli.flagStep. simpl.
  destruct (bool_decide_reflect (Cli.command r = "")) as [Hc|Hc]; [|done].
  destruct r. simpl in Hc. by subst.
Qed.

(** X9. A value option that is the last argument, or that is followed by
    an empty string, is dropped without an error: the loop goes on from
    the same state, and the empty string is skipped too. *)
Theorem valueFlag_without_value r flag (rest : list string) :
  flag ∈ Cli.valueFlags →
  Cli.parseLoop r [flag] = r
  ∧ Cli.parseLoop r (flag :: "" :: rest) = Cli.parseLoop r rest.
Proof.
  intros Hflag. split.
  - cbn [Cli.parseLoop]. by apply flagStep_valueFlag.
  - assert (Cli.parseLoop r (flag :: "" :: rest)
            = Cli.parseLoop (Cli.flagStep r flag) ("" :: rest)) as ->.
    { cbn [Cli.parseLoop].
      rewrite (bool_decide_eq_false_2 ("" ≠ "")) by (intros H; by apply H).
      by rewrite !andb_false_r. }
    rewrite (flagStep_valueFlag _ _ Hflag).
    rewrite parseLoop_cons_plain by compute_done.
    by rewrite flagStep_empty.
Qed.

Lemma valueFlag_without_value_witness :
  Cli.parseLoop (Cli.initial "/app") ["--cwd"] = Cli.initial "/app"
  ∧ Cli.parseLoop (Cli.initial "/app") ["--cwd"; ""; "check"]
    = Cli.parseLoop (Cli.initial "/app") ["check"].
Proof.
  apply (valueFlag_without_value (Cli.initial "/app") "--cwd" ["check"]).
  compute_done.
Defined.

Lemma parseLoop_command (args : list string) :
  ∀ r,
    Cli.command (Cli.parseLoop r args) = Cli.command r
    ∨ Cli.command (Cli.parseLoop r args) = "help"
    ∨ Cli.command (Cli.parseLoop r args) = "version"
    ∨ (Cli.command (Cli.parseLoop r args) ∈ args
       ∧ Cli.startsWith (Cli.command (Cli.parseLoop r args)) "-" = false).
Proof.
  induction args as [|arg rest IH1 IH2] using list_two_step_ind; intros r;
    [by left|].
  assert (Cli.command (Cli.parseLoop (Cli.flagStep r arg) rest)
          = Cli.command r
          ∨ Cli.command (Cli.parseLoop (Cli.flagStep r arg) rest) = "help"
          ∨ Cli.command (Cli.parseLoop (Cli.flagStep r arg) rest) = "version"
          ∨ (Cli.command (Cli.parseLoop (Cli.flagStep r arg) rest)
               ∈ arg :: rest
             ∧ Cli.startsWith
                 (Cli.command (Cli.parseLoop (Cli.flagStep r arg) rest)) "-"
               = false)) as Hplain.
  { destruct (IH1 (Cli.flagStep r arg)) as [Heq|[?|[?|[Hin Hd]]]];
      [|by right; left|by right; right; left
       |right; right; right; split; [by right|done]].
    rewrite Heq, flagStep_command.
    destruct (Cli.isHelpFlag arg); [by right; left|].
    destruct (Cli.isVersionFlag arg); [by right; right; left|].
    destruct (Cli.isPositional arg) eqn:Hp; simpl; [|by left].
    destruct (bool_decide (Cli.command r = "")); [|by left].
    right; right; right. split; [by left|].
    unfold Cli.isPositional in Hp. apply andb_true_iff in Hp as [Hp _].
    by destruct (Cli.startsWith arg "-"). }
  destruct rest as [|next rest']; [exact Hplain|].
  cbn [Cli.parseLoop]. simpl in IH2.
  assert (∀ r', Cli.command r' = Cli.command r →
            Cli.command (Cli.parseLoop r' rest') = Cli.command r
            ∨ Cli.command (Cli.parseLoop r' rest') = "help"
            ∨ Cli.command (Cli.parseLoop r' rest') = "version"
            ∨ (Cli.command (Cli.parseLoop r' rest') ∈ arg :: next :: rest'
               ∧ Cli.startsWith (Cli.command (Cli.parseLoop r' rest')) "-"
                 = false)) as Hvalue.
  { intros r' Hr'.
    destruct (IH2 r') as [Heq|[?|[?|[Hin Hd]]]];
      [left; congruence|by right; left|by right; right; left|].
    right; right; right. split; [by do 2 right|done]. }
  repeat match goal with
  | |- context [bool_decide (arg = ?s) && bool_decide (next ≠ "")] =>
      destruct (bool_decide (arg = s) && bool_decide (next ≠ ""));
      [by apply Hvalue|]
  end.
  exact Hplain.
Qed.

(** X10. The command that [parseArgs] returns is never made up: it is
    empty, [help], [version], or one of the arguments, and then one that
    does not start with a dash. *)
Theorem parseArgs_command process_cwd (args : list string) :
  Cli.command (Cli.parseArgs process_cwd args) = ""
  ∨ Cli.command (Cli.parseArgs process_cwd args) = "help"
  ∨ Cli.command (Cli.parseArgs process_cwd args) = "version"
  ∨ (Cli.command (Cli.parseArgs process_cwd args) ∈ args
     ∧ Cli.startsWith (Cli.command (Cli.parseArgs process_cwd args)) "-"
       = false).
Proof. apply (parseLoop_command args (Cli.initial process_cwd)). Qed.


(** * Locating and loading the schema *)

Section LoadSchemaFacts.

Variable existsSync : string → bool.
Variable join : string → string → string.
Variable resolve : string → string → string.
Variable fileUrl : string → string.
Variable importModule :
  string → LoadSchema.thrown + list (string * LoadSchema.value).
Variable process_cwd : string.

Lemma findIn_Some cwd (names : list string) p :
  LoadSchema.findIn existsSync join cwd names = Some p
  ↔ ∃ i name,
      names !! i = Some name
      ∧ p = join cwd name
      ∧ existsSync p = true
      ∧ ∀ j name', j < i → names !! j = Some name' →
          existsSync (join cwd name') = false.
Proof.
  induction names as [|fileName rest IH]; simpl.
  - split; [done|]. by intros (i & name & ? & _).
  - destruct (existsSync (join cwd fileName)) eqn:Hex.
    + split.
      * intros [= <-]. exists 0, fileName. repeat split; try done.
        intros j name' Hj. lia.
      * intros (i & name & Hi & -> & Hp & Hfirst).
        destruct i as [|i]; [by injection Hi as ->|].
        specialize (Hfirst 0 fileName ltac:(lia) eq_refl). congruence.
    + rewrite IH. split.
      * intros (i & name & Hi & -> & Hp & Hfirst).
        exists (S i), name. repeat split; try done.
        intros [|j] name' Hj Hn; [by injection Hn as <-|].
        apply (Hfirst j); [lia|done].
      * intros (i & name & Hi & -> & Hp & Hfirst).
        destruct i as [|i]; [injection Hi as ->; congruence|].
        exists i, name. repeat split; try done.
        intros j name' Hj Hn. apply (Hfirst (S j)); [lia|done].
Qed.

Lemma findIn_None cwd (names : list string) :
  LoadSchema.findIn existsSync join cwd names = None
  ↔ ∀ name, name ∈ names → existsSync (join cwd name) = false.
Proof.
  induction names as [|fileName rest IH]; simpl.
  - split; [by intros _ ? ?%elem_of_nil|done].
  - destruct (existsSync (join cwd fileName)) eqn:Hex.
    + split; [done|]. intros H. rewrite H in Hex; [done|by left].
    + rewrite IH. split.
      * intros H name [->|Hin]%elem_of_cons; [done|by apply H].
      * intros H name Hin. apply H. by right.
Qed.

(** X11. [findSchemaFile] returns the path of the first name of
    [SCHEMA_FILE_NAMES], in the listed order, whose file exists in the
    directory, and returns [null] exactly when none of the eight files
    exists. *)
Theorem findSchemaFile_first_existing (cwd : option string) :
  (∀ p,
     LoadSchema.findSchemaFile existsSync join process_cwd cwd = Some p
     ↔ ∃ i name,
         LoadSchema.SCHEMA_FILE_NAMES !! i = Some name
         ∧ p = join (default process_cwd cwd) name
         ∧ existsSync p = true
         ∧ ∀ j name', j < i →
             LoadSchema.SCHEMA_FILE_NAMES !! j = Some name' →
             existsSync (join (default process_cwd cwd) name') = false)
  ∧ (LoadSchema.findSchemaFile existsSync join process_cwd cwd = None
     ↔ ∀ name, name ∈ LoadSchema.SCHEMA_FILE_NAMES →
         existsSync (join (default process_cwd cwd) name) = false).
Proof.
  unfold LoadSchema.findSchemaFile. split.
  - intros p. apply findIn_Some.
  - apply findIn_None.
Qed.

(** A value that [loadSchema] takes from a named export: an array or an
    object, whatever it holds. *)
Lemma export_qualifies v :
  LoadSchema.truthy v && LoadSchema.typeofObject v = true
  ↔ (∃ elems, v = LoadSchema.VArray elems)
    ∨ (∃ props, v = LoadSchema.VObject props).
Proof.
  destruct v; simpl; rewrite ?andb_false_r; try (split; [done|]);
    try (intros [[? ?]|[? ?]]; discriminate).
  - split; [|done]. intros _. left. by eexists.
  - split; [|done]. intros _. right. by eexists.
Qed.

Lemma pickExport_Some module (names : list string) v :
  LoadSchema.pickExport module names = Some v
  ↔ ∃ i name,
      names !! i = Some name
      ∧ v = LoadSchema.getProp module name
      ∧ LoadSchema.truthy v && LoadSchema.typeofObject v = true
      ∧ ∀ j name', j < i → names !! j = Some name' →
          LoadSchema.truthy (LoadSchema.getProp module name')
          && LoadSchema.typeofObject (LoadSchema.getProp module name')
          = false.
Proof.
  induction names as [|exportName rest IH]; simpl.
  - split; [done|]. by intros (i & name & ? & _).
  - destruct (LoadSchema.truthy (LoadSchema.getProp module exportName)
              && LoadSchema.typeofObject
                   (LoadSchema.getProp module exportName)) eqn:Hq.
    + split.
      * intros [= <-]. exists 0, exportName. repeat split; try done.
        intros j name' Hj. lia.
      * intros (i & name & Hi & -> & Hp & Hfirst).
        destruct i as [|i]; [by injection Hi as ->|].
        specialize (Hfirst 0 exportName ltac:(lia) eq_refl). congruence.
    + rewrite IH. split.
      * intros (i & name & Hi & -> & Hp & Hfirst).
        exists (S i), name. repeat split; try done.
        intros [|j] name' Hj Hn; [by injection Hn as <-|].
        apply (Hfirst j); [lia|done].
      * intros (i & name & Hi & -> & Hp & Hfirst).
        destruct i as [|i]; [injection Hi as ->; congruence|].
        exists i, name. repeat split; try done.
        intros j name' Hj Hn. apply (Hfirst (S j)); [lia|done].
Qed.

Lemma pickExport_None module (names : list string) :
  LoadSchema.pickExport module names = None
  ↔ ∀ name, name ∈ names →
      LoadSchema.truthy (LoadSchema.getProp module name)
      && LoadSchema.typeofObject (LoadSchema.getProp module name) = false.
Proof.
  induction names as [|exportName rest IH]; simpl.
  - split; [by intros _ ? ?%elem_of_nil|done].
  - destruct (LoadSchema.truthy (LoadSchema.getProp module exportName)
              && LoadSchema.typeofObject
                   (LoadSchema.getProp module exportName)) eqn:Hq.
    + split; [done|]. intros H. rewrite H in Hq; [done|by left].
    + rewrite IH. split.
      * intros H name [->|Hin]%elem_of_cons; [done|by apply H].
      * intros H name Hin. apply H. by right.
Qed.

(** X12. [loadSchema] resolves only with a value taken from a successful
    import of a file that exists, the file being the resolved [filePath]
    or, without one, the file that [findSchemaFile] returns; the value is
    the first of the exports [envSchema], [schema], [default] that is an
    object or an array, taken without any check of its shape, or else the
    module itself when [isValidSchema] accepts it. *)
Theorem loadSchema_resolves_only_from_import (filePath cwd : option string) v :
  LoadSchema.loadSchema existsSync join resolve fileUrl importModule
    process_cwd filePath cwd = inr v →
  ∃ path module,
    ((∃ f, filePath = Some f ∧ f ≠ ""
           ∧ path = resolve (default process_cwd cwd) f)
     ∨ ((filePath = None ∨ filePath = Some "")
        ∧ LoadSchema.findSchemaFile existsSync join process_cwd
            (Some (default process_cwd cwd)) = Some path))
    ∧ existsSync path = true
    ∧ importModule (fileUrl path) = inr module
    ∧ ((∃ i name,
          LoadSchema.SCHEMA_EXPORT_NAMES !! i = Some name
          ∧ v = LoadSchema.getProp module name
          ∧ ((∃ elems, v = LoadSchema.VArray elems)
             ∨ (∃ props, v = LoadSchema.VObject props))
          ∧ ∀ j name', j < i →
              LoadSchema.SCHEMA_EXPORT_NAMES !! j = Some name' →
              LoadSchema.truthy (LoadSchema.getProp module name')
              && LoadSchema.typeofObject (LoadSchema.getProp module name')
              = false)
       ∨ (v = LoadSchema.VObject module
          ∧ LoadSchema.isValidSchema (LoadSchema.VObject module) = true
          ∧ LoadSchema.pickExport module LoadSchema.SCHEMA_EXPORT_NAMES
            = None)).
Proof.
  unfold LoadSchema.loadSchema.
  match goal with
  | |- match ?sp with _ => _ end = _ → _ => destruct sp as [path|] eqn:Hpath
  end; [|discriminate].
  destruct (bool_decide (path = "")); [discriminate|].
  destruct (existsSync path) eqn:Hex; [|discriminate]. simpl.
  unfold LoadSchema.tryLoad.
  destruct (importModule (fileUrl path)) as [error|module] eqn:Himp;
    [discriminate|].
  intros Hv. exists path, module. split; [|split; [done|split; [done|]]].
  - destruct filePath as [f|].
    + destruct (bool_decide_reflect (f ≠ "")) as [Hf|Hf].
      * left. exists f. injection Hpath as <-. by repeat split.
      * right. split; [|done]. right.
        destruct (decide (f = "")) as [->|]; [done|by destruct Hf].
    + right. split; [by left|done].
  - destruct (LoadSchema.pickExport module LoadSchema.SCHEMA_EXPORT_NAMES)
      as [v'|] eqn:Hpick.
    + injection Hv as ->. left.
      apply pickExport_Some in Hpick as (i & name & Hi & -> & Hq & Hfirst).
      exists i, name. repeat split; try done. by apply export_qualifies.
    + destruct (LoadSchema.isValidSchema (LoadSchema.VObject module)) eqn:Hvalid;
        [|discriminate].
      injection Hv as <-. right. by repeat split.
Qed.

Lemma includes_app (a b : string) : LoadSchema.includes (a +:+ b) b = true.
Proof.
  assert (∀ s, Cli.startsWith s s = true) as Hrefl.
  { induction s as [|c s IH]; simpl; [done|].
    by rewrite bool_decide_eq_true_2, IH. }
  induction a as [|c a IH]; simpl.
  - destruct b; simpl; [done|].
    by rewrite bool_decide_eq_true_2, Hrefl.
  - rewrite IH. by rewrite orb_true_r.
Qed.

Lemma includes_prepend (a s b : string) :
  LoadSchema.includes s b = true → LoadSchema.includes (a +:+ s) b = true.
Proof.
  intros Hs. induction a as [|c a IH]; simpl; [done|].
  rewrite IH. by rewrite orb_true_r.
Qed.

(** Once the schema file is settled, by [filePath] or by
    [findSchemaFile], and exists, [loadSchema] is the [try] block with
    its [catch]. *)
Lemma loadSchema_at_path (filePath cwd : option string) path :
  (∃ f, filePath = Some f ∧ f ≠ ""
        ∧ path = resolve (default process_cwd cwd) f)
  ∨ ((filePath = None ∨ filePath = Some "")
     ∧ LoadSchema.findSchemaFile existsSync join process_cwd
         (Some (default process_cwd cwd)) = Some path) →
  path ≠ "" →
  existsSync path = true →
  LoadSchema.loadSchema existsSync join resolve fileUrl importModule
    process_cwd filePath cwd
  = match LoadSchema.tryLoad fileUrl importModule path with
    | inr v => inr v
    | inl error => inl (LoadSchema.catchLoad path error)
    end.
Proof.
  intros Hchoice Hpath Hex. unfold LoadSchema.loadSchema.
  assert (match filePath with
          | Some f =>
              if bool_decide (f ≠ "")
              then Some (resolve (default process_cwd cwd) f)
              else LoadSchema.findSchemaFile existsSync join process_cwd
                     (Some (default process_cwd cwd))
          | None =>
              LoadSchema.findSchemaFile existsSync join process_cwd
                (Some (default process_cwd cwd))
          end = Some path) as ->.
  { destruct Hchoice as [(f & -> & Hf & ->)|[[-> | ->] Hfind]]; [|done..].
    by rewrite (bool_decide_eq_true_2 (f ≠ "")). }
  rewrite (bool_decide_eq_false_2 (path = "")) by done.
  by rewrite Hex.
Qed.

(** X13. When the import of the schema file throws, the promise of
    [loadSchema] is rejected with a message that contains the text of
    what was thrown, whichever of the three messages is built; the file
    is the resolved [filePath] or, without one, the file that
    [findSchemaFile] returns. *)
Theorem loadSchema_keeps_cause (filePath cwd : option string) path error :
  (∃ f, filePath = Some f ∧ f ≠ ""
        ∧ path = resolve (default process_cwd cwd) f)
  ∨ ((filePath = None ∨ filePath = Some "")
     ∧ LoadSchema.findSchemaFile existsSync join process_cwd
         (Some (default process_cwd cwd)) = Some path) →
  path ≠ "" →
  existsSync path = true →
  importModule (fileUrl path) = inl error →
  ∃ message,
    LoadSchema.loadSchema existsSync join resolve fileUrl importModule
      process_cwd filePath cwd = inl message
    ∧ LoadSchema.includes message (LoadSchema.errorText error) = true.
Proof.
  intros Hchoice Hpath Hex Himp.
  rewrite (loadSchema_at_path _ _ _ Hchoice Hpath Hex).
  unfold LoadSchema.tryLoad. rewrite Himp.
  eexists. split; [reflexivity|].
  unfold LoadSchema.catchLoad.
  destruct (match error with
            | LoadSchema.TError message =>
                LoadSchema.includes message "does not export"
            | LoadSchema.TOther _ => false
            end).
  - apply (includes_app "").
  - destruct (LoadSchema.endsWith _ ".ts").
    + unfold LoadSchema.typeScriptMessage.
      repeat match goal with
      | |- LoadSchema.includes (String.append ?a ?s) ?b = true =>
          first [constr_eq s b; apply (includes_app a b)
                |apply (includes_prepend a s b)]
      end.
    + unfold LoadSchema.failedMessage.
      repeat match goal with
      | |- LoadSchema.includes (String.append ?a ?s) ?b = true =>
          first [constr_eq s b; apply (includes_app a b)
                |apply (includes_prepend a s b)]
      end.
Qed.

(** X14. When the module of the schema file has no export named
    [envSchema], [schema] or [default] that is an object or an array, and
    is not itself shaped like a schema, [loadSchema] rejects with the
    message naming the three exports, unwrapped: the error thrown inside
    the [try] block passes through the [catch] block as it is, also for a
    [.ts] file. The file is the resolved [filePath] or, without one, the
    file that [findSchemaFile] returns. *)
Theorem loadSchema_no_valid_export (filePath cwd : option string) path
    module :
  (∃ f, filePath = Some f ∧ f ≠ ""
        ∧ path = resolve (default process_cwd cwd) f)
  ∨ ((filePath = None ∨ filePath = Some "")
     ∧ LoadSchema.findSchemaFile existsSync join process_cwd
         (Some (default process_cwd cwd)) = Some path) →
  path ≠ "" →
  existsSync path = true →
  importModule (fileUrl path) = inr module →
  (∀ name, name ∈ LoadSchema.SCHEMA_EXPORT_NAMES →
     LoadSchema.truthy (LoadSchema.getProp module name)
     && LoadSchema.typeofObject (LoadSchema.getProp module name) = false) →
  LoadSchema.isValidSchema (LoadSchema.VObject module) = false →
  LoadSchema.loadSchema existsSync join resolve fileUrl importModule
    process_cwd filePath cwd
  = inl "Schema file does not export a valid schema. Expected export named: envSchema, schema, default".
Proof.
  intros Hchoice Hpath Hex Himp Hnone Hvalid.
  rewrite (loadSchema_at_path _ _ _ Hchoice Hpath Hex).
  unfold LoadSchema.tryLoad. rewrite Himp.
  rewrite (proj2 (pickExport_None module _) Hnone), Hvalid.
  reflexivity.
Qed.

End LoadSchemaFacts.

Lemma loadSchema_resolves_only_from_import_witness :
  ∃ path module,
    ((∃ f, None = Some f ∧ f ≠ "" ∧ path = LoadSchema.demo_join "/app" f)
     ∨ ((@None string = None ∨ None = Some "")
        ∧ LoadSchema.findSchemaFile LoadSchema.demo_exists
            LoadSchema.demo_join "/app" (Some "/app") = Some path))
    ∧ LoadSchema.demo_exists path = true
    ∧ (λ _, inr [("schema", LoadSchema.demo_schema)]
         : LoadSchema.thrown + list (string * LoadSchema.value))
        (LoadSchema.demo_url path)
      = inr module
    ∧ ((∃ i name,
          LoadSchema.SCHEMA_EXPORT_NAMES !! i = Some name
          ∧ LoadSchema.demo_schema = LoadSchema.getProp module name
          ∧ ((∃ elems, LoadSchema.demo_schema = LoadSchema.VArray elems)
             ∨ (∃ props, LoadSchema.demo_schema = LoadSchema.VObject props))
          ∧ ∀ j name', j < i →
              LoadSchema.SCHEMA_EXPORT_NAMES !! j = Some name' →
              LoadSchema.truthy (LoadSchema.getProp module name')
              && LoadSchema.typeofObject (LoadSchema.getProp module name')
              = false)
       ∨ (LoadSchema.demo_schema = LoadSchema.VObject module
          ∧ LoadSchema.isValidSchema (LoadSchema.VObject module) = true
          ∧ LoadSchema.pickExport module LoadSchema.SCHEMA_EXPORT_NAMES
            = None)).
Proof.
  apply (loadSchema_resolves_only_from_import LoadSchema.demo_exists
           LoadSchema.demo_join LoadSchema.demo_join LoadSchema.demo_url
           (λ _, inr [("schema", LoadSchema.demo_schema)]) "/app" None None
           LoadSchema.demo_schema).
  vm_compute. reflexivity.
Defined.

Lemma loadSchema_keeps_cause_witness :
  ∃ message,
    LoadSchema.loadSchema LoadSchema.demo_exists LoadSchema.demo_join
      LoadSchema.demo_join LoadSchema.demo_url
      (λ _, inl (LoadSchema.TError "Unexpected token")) "/app" None None
    = inl message
    ∧ LoadSchema.includes message
        (LoadSchema.errorText (LoadSchema.TError "Unexpected token"))
      = true.
Proof.
  apply (loadSchema_keeps_cause LoadSchema.demo_exists LoadSchema.demo_join
           LoadSchema.demo_join LoadSchema.demo_url
           (λ _, inl (LoadSchema.TError "Unexpected token")) "/app"
           None None "/app/env.schema.js"
           (LoadSchema.TError "Unexpected token")).
  - right. split; [by left|]. vm_compute. reflexivity.
  - discriminate.
  - vm_compute. reflexivity.
  - reflexivity.
Defined.

Lemma loadSchema_no_valid_export_witness :
  LoadSchema.loadSchema LoadSchema.demo_exists LoadSchema.demo_join
    LoadSchema.demo_join LoadSchema.demo_url
    (λ _, inr [("port", LoadSchema.VString "3000")]) "/app" None None
  = inl "Schema file does not export a valid schema. Expected export named: envSchema, schema, default".
Proof.
  apply (loadSchema_no_valid_export LoadSchema.demo_exists
           LoadSchema.demo_join LoadSchema.demo_join LoadSchema.demo_url
           (λ _, inr [("port", LoadSchema.VString "3000")]) "/app"
           None None "/app/env.schema.js"
           [("port", LoadSchema.VString "3000")]).
  - right. split; [by left|]. vm_compute. reflexivity.
  - discriminate.
  - vm_compute. reflexivity.
  - reflexivity.
  - apply (proj1 (Forall_forall _ _)). compute_done.
  - reflexivity.
Defined.


(** * Sharing and freshness in the store *)

Lemma entryObjects_eq h0 env key cl c allowed :
  h0 !! cl = Some (Heap.OVarSchema (EnvVarSchema.required c)
                     (EnvVarSchema.description c) (EnvVarSchema.example c)
                     (EnvVarSchema.default c) allowed) →
  Heap.readAllowed h0 allowed = Some (EnvVarSchema.allowed c) →
  entryObjects h0 env (key, cl)
  = map (λ e, Heap.OError (ValidationError.variable e)
                (ValidationError.message e)
                (ValidationError.description e) allowed)
        (checkEntry (JS.get env key) key c).
Proof.
  intros Hcl Hal. unfold entryObjects. cbn [fst snd].
  rewrite Hcl, Hal. by destruct c.
Qed.

Lemma iteration_objects h0 envL E key cl c vals eobjs cons :
  h0 !! envL = Some (Heap.ORecord E) →
  Heap.readVarSchema h0 cl = Some c →
  Heap.iteration envL (length h0) (S (length h0)) (key, cl)
    (Heap.mkState (Heap.shape h0 vals eobjs) cons)
  = (Heap.Ok tt,
     Heap.mkState
       (Heap.shape h0 (JS.set vals key (effectiveValue (JS.get E key) c))
          (eobjs ++ entryObjects h0 E (key, cl)))
       cons).
Proof.
  intros Henv (al & Hcl & Hal)%readVarSchema_inv.
  rewrite (entryObjects_eq h0 E key cl c al Hcl Hal).
  unfold Heap.iteration.
  erewrite bind_ok; last first.
  { apply getProp_exec. simpl. by apply shape_keeps. }
  erewrite bind_ok; last first.
  { apply load_exec. simpl. by apply shape_keeps. }
  cbv beta iota.
  erewrite bind_ok; last first.
  { apply setProp_exec. simpl. apply shape_lookup_values. }
  cbn [Heap.objects Heap.console]. rewrite shape_set_values.
  unfold checkEntry, isRequired, hasDefault.
  fold (effectiveValue (JS.get E key) c).
  destruct (bool_decide (EnvVarSchema.required c = Some true)
            && negb (hasValue (JS.get E key))
            && negb (bool_decide (EnvVarSchema.default c ≠ None))).
  { apply pushError_exec. }
  destruct al as [arr|]; last first.
  { injection Hal as <-. cbn [map]. by rewrite app_nil_r. }
  unfold Heap.readAllowed in Hal.
  destruct (h0 !! arr) as [[]|] eqn:Harr; try done.
  injection Hal as Hal. rewrite <- Hal.
  erewrite bind_ok; last first.
  { apply loadStrings_exec. simpl. by apply shape_keeps. }
  destruct (effectiveValue (JS.get E key) c) as [effective|];
    destruct (bool_decide (0 < length elems)); cbn [map];
    try (by rewrite app_nil_r).
  destruct (JS.includes elems effective); cbn [negb map].
  { by rewrite app_nil_r. }
  apply pushError_exec.
Qed.

Lemma forEach_objects h0 envL E entries (schema : EnvSchema) cons :
  h0 !! envL = Some (Heap.ORecord E) →
  Forall2 (λ x y, Heap.readEntry h0 x = Some y) entries schema →
  ∀ vals eobjs errs,
    Heap.forEach (Heap.iteration envL (length h0) (S (length h0))) entries
      (Heap.mkState (Heap.shape h0 vals eobjs) cons)
    = (Heap.Ok tt,
       Heap.mkState
         (Heap.shape h0 (fold_left (loopBody E) schema (errs, vals)).2
            (eobjs ++ concat (map (entryObjects h0 E) entries)))
         cons).
Proof.
  intros Henv Hents.
  induction Hents as [|[key cl] [key' c] entries schema Hent _ IH];
    intros vals eobjs errs.
  - simpl. by rewrite app_nil_r.
  - apply readEntry_inv in Hent as [-> Hc].
    cbn [Heap.forEach]. erewrite bind_ok; [|by apply iteration_objects].
    rewrite (IH _ _ (errs ++ checkEntry (JS.get E key) key c)).
    cbn [map concat fold_left loopBody]. by rewrite <- app_assoc.
Qed.

Lemma shape_inj h0 vals eobjs1 eobjs2 :
  Heap.shape h0 vals eobjs1 = Heap.shape h0 vals eobjs2 → eobjs1 = eobjs2.
Proof.
  unfold Heap.shape. intros H%app_inv_head. by injection H.
Qed.

(** The store after [Heap.validateEnv], object by object. *)
Lemma Heap_validateEnv_objects h0 cons peL schemaL envOpt thr entries
    (schema : EnvSchema) E :
  h0 !! schemaL = Some (Heap.OSchema entries) →
  Forall2 (λ x y, Heap.readEntry h0 x = Some y) entries schema →
  h0 !! default peL envOpt = Some (Heap.ORecord E) →
  ∃ out valid cons',
    Heap.validateEnv peL schemaL envOpt thr (Heap.mkState h0 cons)
    = (out,
       Heap.mkState
         (Heap.shape h0 (runLoop E schema).2
            (concat (map (entryObjects h0 E) entries))
          ++ [Heap.OResult valid (length h0) (S (length h0))])
         cons')
    ∧ (∀ l, out = Heap.Ok l →
         l = length h0 + 2
             + length (concat (map (entryObjects h0 E) entries))).
Proof.
  intros Hsl Hs Henv.
  destruct (forEach_exec h0 _ E entries schema cons Henv Hs ∅ [] []
              (Forall2_nil_2 _ _ _)) as (eobjs & Hloop & Hobjs).
  rewrite (forEach_objects h0 _ E entries schema cons Henv Hs ∅ [] [])
    in Hloop.
  injection Hloop as Hshape. apply shape_inj in Hshape. simpl in Hshape.
  subst eobjs.
  pose proof (forEach_objects h0 _ E entries schema cons Henv Hs ∅ [] [])
    as Hloop.
  fold (runLoop E schema) in Hloop, Hobjs. simpl in Hloop.
  set (eobjs := concat (map (entryObjects h0 E) entries)) in *.
  unfold Heap.validateEnv.
  erewrite bind_ok; [|reflexivity].
  erewrite bind_ok; [|reflexivity].
  cbn [Heap.objects Heap.console].
  replace ((h0 ++ [Heap.OErrors []]) ++ [Heap.ORecord ∅])
    with (Heap.shape h0 ∅ [])
    by (unfold Heap.shape; by rewrite <- app_assoc).
  replace (length (h0 ++ [Heap.OErrors []])) with (S (length h0))
    by (rewrite length_app; simpl; lia).
  erewrite bind_ok; last first.
  { apply load_exec. simpl. apply shape_keeps. exact Hsl. }
  cbv beta iota.
  erewrite bind_ok; [|exact Hloop].
  erewrite bind_ok; last first.
  { apply loadErrors_exec. apply shape_lookup_errors. }
  rewrite length_seq.
  erewrite bind_ok; [|reflexivity].
  cbn [Heap.objects Heap.console].
  set (valid := bool_decide (length eobjs = 0)).
  set (h1 := Heap.shape h0 (runLoop E schema).2 eobjs
             ++ [Heap.OResult valid (length h0) (S (length h0))]).
  destruct (negb valid && default true thr) eqn:Hthrow.
  - assert (keeps h0 h1) as Hk.
    { intros l o Hl. apply lookup_app_l_Some. by apply shape_keeps. }
    assert (Forall2 (λ l e, Heap.readError h1 l = Some e)
              (seq (length h0 + 2) (length eobjs)) (runLoop E schema).1)
      as Herrs.
    { apply (readError_seq h0 h1 eobjs _ Hk); [|exact Hobjs].
      intros i Hi. unfold h1. rewrite lookup_app_l.
      - apply shape_lookup_error.
      - rewrite shape_length. lia. }
    erewrite bind_ok; last first.
    { unfold Heap.formatErrors.
      erewrite bind_ok; last first.
      { apply loadErrors_exec. simpl. apply lookup_app_l_Some.
        apply shape_lookup_errors. }
      erewrite bind_ok; [|by apply formatLines_exec].
      reflexivity. }
    erewrite bind_ok; [|reflexivity].
    eexists _, valid, _. split; [reflexivity|]. intros l Hl. discriminate.
  - eexists _, valid, _. split; [reflexivity|].
    intros l [= <-]. rewrite shape_length. reflexivity.
Qed.

Lemma elem_of_entryObjects h0 E key cl variable message description expected :
  Heap.OError variable message description expected
    ∈ entryObjects h0 E (key, cl) →
  variable = key
  ∧ ∃ required example default,
      h0 !! cl = Some (Heap.OVarSchema required description example default
                         expected).
Proof.
  unfold entryObjects. cbn [fst snd].
  destruct (h0 !! cl) as [[required description' example default allowed| | | | | |]|];
    try by intros ?%elem_of_nil.
  destruct (Heap.readAllowed h0 allowed) as [allowedList|];
    [|by intros ?%elem_of_nil].
  intros He. apply list_elem_of_In, in_map_iff in He as (e & [= <- <- <- <-] & He).
  apply list_elem_of_In in He.
  split; [by eapply checkEntry_variable|].
  apply checkEntry_cases in He as [(-> & _)|(v & -> & _)]; simpl; by eauto.
Qed.

(** X15. Everything [validateEnv] allocates is new: the store after the
    call is the store before it followed by new objects, and the returned
    result is one of them. The [expected] of every error object is the
    very reference that the [allowed] property of its variable's spec
    holds, not a copy of the array, and the error carries the spec's
    description. *)
Theorem validateEnv_allocates_and_shares s peL schemaL envOpt thr entries
    (schema : EnvSchema) E :
  Heap.objects s !! schemaL = Some (Heap.OSchema entries) →
  Heap.readSchema (Heap.objects s) schemaL = Some schema →
  Heap.readRecord (Heap.objects s) (default peL envOpt) = Some E →
  ∃ out s' new,
    Heap.validateEnv peL schemaL envOpt thr s = (out, s')
    ∧ Heap.objects s' = Heap.objects s ++ new
    ∧ (∀ l, out = Heap.Ok l →
         (length (Heap.objects s) ≤ l)%nat
         ∧ ∃ valid errors values,
             Heap.objects s' !! l = Some (Heap.OResult valid errors values)
             ∧ (length (Heap.objects s) ≤ errors)%nat
             ∧ (length (Heap.objects s) ≤ values)%nat)
    ∧ (∀ variable message description expected,
         Heap.OError variable message description expected ∈ new →
         ∃ cl required example default,
           (variable, cl) ∈ entries
           ∧ Heap.objects s !! cl
             = Some (Heap.OVarSchema required description example default
                       expected)).
Proof.
  destruct s as [h0 cons]. cbn [Heap.objects]. intros Hsl Hs He.
  unfold Heap.readSchema in Hs. rewrite Hsl in Hs. apply mapM_Some in Hs.
  unfold Heap.readRecord in He.
  destruct (h0 !! default peL envOpt) as [[]|] eqn:Henv; try done.
  injection He as ->.
  destruct (Heap_validateEnv_objects h0 cons peL schemaL envOpt thr entries
              schema E Hsl Hs Henv) as (out & valid & cons' & Hrun & Hout).
  eexists out, _, _. split; [exact Hrun|]. cbn [Heap.objects].
  split; [unfold Heap.shape; rewrite <- app_assoc; reflexivity|].
  split.
  - intros l Hl. rewrite (Hout l Hl). split; [lia|].
    exists valid, (length h0), (S (length h0)). split; [|lia].
    rewrite <- (shape_length h0 (runLoop E schema).2).
    by apply list_lookup_middle.
  - intros variable message description expected Hin.
    apply elem_of_app in Hin as [Hin|Hin]; last first.
    { apply list_elem_of_singleton in Hin. discriminate. }
    apply elem_of_cons in Hin as [Hin|Hin]; [discriminate|].
    apply elem_of_cons in Hin as [Hin|Hin]; [discriminate|].
    apply list_elem_of_In, in_concat in Hin as (objs & Hobjs & Hin).
    apply in_map_iff in Hobjs as ([key cl] & <- & Hentry).
    apply list_elem_of_In in Hin, Hentry.
    apply elem_of_entryObjects in Hin as (-> & required & example & default
                                           & Hcl).
    by exists cl, required, example, default.
Qed.

Lemma validateEnv_allocates_and_shares_witness :
  ∃ out s' new,
    Heap.validateEnv 3 2 None (Some false)
      (Heap.mkState Heap.scenario2_store []) = (out, s')
    ∧ Heap.objects s' = Heap.scenario2_store ++ new
    ∧ (∀ l, out = Heap.Ok l →
         (length Heap.scenario2_store ≤ l)%nat
         ∧ ∃ valid errors values,
             Heap.objects s' !! l = Some (Heap.OResult valid errors values)
             ∧ (length Heap.scenario2_store ≤ errors)%nat
             ∧ (length Heap.scenario2_store ≤ values)%nat)
    ∧ (∀ variable message description expected,
         Heap.OError variable message description expected ∈ new →
         ∃ cl required example default,
           (variable, cl) ∈ [("NODE_ENV", 1)]
           ∧ Heap.scenario2_store !! cl
             = Some (Heap.OVarSchema required description example default
                       expected)).
Proof.
  apply (validateEnv_allocates_and_shares
           (Heap.mkState Heap.scenario2_store []) 3 2 None (Some false)
           [("NODE_ENV", 1)] scenario2_schema
           {["NODE_ENV" := Some "staging"]}).
  - reflexivity.
  - reflexivity.
  - reflexivity.
Defined.


(** * The module as a schema *)

Lemma plain_object_iff x :
  negb (LoadSchema.isNull x) && LoadSchema.typeofObject x
  && negb (LoadSchema.isArray x) = true
  ↔ ∃ props, x = LoadSchema.VObject props.
Proof.
  destruct x; simpl; split; try done; try (by intros [? ?]).
  intros _. by eexists.
Qed.

Lemma isValidSchema_object (props : list (string * LoadSchema.value)) :
  LoadSchema.isValidSchema (LoadSchema.VObject props) = true
  ↔ props ≠ []
    ∧ ∀ key x, (key, x) ∈ props → ∃ ps, x = LoadSchema.VObject ps.
Proof.
  unfold LoadSchema.isValidSchema. cbn [LoadSchema.truthy
    LoadSchema.typeofObject LoadSchema.objectEntries negb orb].
  destruct props as [|entry rest].
  - split; [done|]. by intros [? _].
  - rewrite (bool_decide_eq_false_2 (length (entry :: rest) = 0)) by done.
    rewrite forallb_forall. split.
    + intros H. split; [done|]. intros key x Hin.
      apply plain_object_iff. apply (H (key, x)). by apply list_elem_of_In.
    + intros [_ H] [key x] Hin. apply plain_object_iff.
      apply (H key). by apply list_elem_of_In.
Qed.

(** X16. For a schema file whose module has none of the exports
    [envSchema], [schema] and [default] as an object or array,
    [loadSchema] resolves with the module itself exactly when the module
    has at least one export and every export is an object that is neither
    [null] nor an array. The file is the resolved [filePath] or, without
    one, the file that [findSchemaFile] returns. *)
Theorem loadSchema_module_fallback (existsSync : string → bool)
    (join resolve : string → string → string) (fileUrl : string → string)
    (importModule :
       string → LoadSchema.thrown + list (string * LoadSchema.value))
    (process_cwd : string) (filePath cwd : option string) path module :
  (∃ f, filePath = Some f ∧ f ≠ ""
        ∧ path = resolve (default process_cwd cwd) f)
  ∨ ((filePath = None ∨ filePath = Some "")
     ∧ LoadSchema.findSchemaFile existsSync join process_cwd
         (Some (default process_cwd cwd)) = Some path) →
  path ≠ "" →
  existsSync path = true →
  importModule (fileUrl path) = inr module →
  (∀ name, name ∈ LoadSchema.SCHEMA_EXPORT_NAMES →
     LoadSchema.truthy (LoadSchema.getProp module name)
     && LoadSchema.typeofObject (LoadSchema.getProp module name) = false) →
  LoadSchema.loadSchema existsSync join resolve fileUrl importModule
    process_cwd filePath cwd
  = inr (LoadSchema.VObject module)
  ↔ module ≠ []
    ∧ ∀ key x, (key, x) ∈ module → ∃ ps, x = LoadSchema.VObject ps.
Proof.
  intros Hchoice Hpath Hex Himp Hnone.
  rewrite (loadSchema_at_path existsSync join resolve fileUrl importModule
             process_cwd _ _ _ Hchoice Hpath Hex).
  unfold LoadSchema.tryLoad. rewrite Himp.
  rewrite (proj2 (pickExport_None module _) Hnone).
  rewrite <- isValidSchema_object.
  destruct (LoadSchema.isValidSchema (LoadSchema.VObject module));
    split; try done.
Qed.

Lemma loadSchema_module_fallback_witness :
  LoadSchema.loadSchema LoadSchema.demo_exists LoadSchema.demo_join
    LoadSchema.demo_join LoadSchema.demo_url
    (λ _, inr [("PORT", LoadSchema.VObject [])]) "/app" None None
  = inr (LoadSchema.VObject [("PORT", LoadSchema.VObject [])])
  ↔ [("PORT", LoadSchema.VObject [])] ≠ []
    ∧ ∀ key x, (key, x) ∈ [("PORT", LoadSchema.VObject [])] →
        ∃ ps, x = LoadSchema.VObject ps.
Proof.
  apply (loadSchema_module_fallback LoadSchema.demo_exists
           LoadSchema.demo_join LoadSchema.demo_join LoadSchema.demo_url
           (λ _, inr [("PORT", LoadSchema.VObject [])]) "/app"
           None None "/app/env.schema.js" [("PORT", LoadSchema.VObject [])]).
  - right. split; [by left|]. vm_compute. reflexivity.
  - discriminate.
  - vm_compute. reflexivity.
  - reflexivity.
  - apply (proj1 (Forall_forall _ _)). compute_done.
Defined.


(** * The [check] command *)

Section CheckFacts.

Variable existsSync : string → bool.
Variable join : string → string → string.
Variable resolve : string → string → string.
Variable fileUrl : string → string.
Variable importModule :
  string → LoadSchema.thrown + list (string * LoadSchema.value).
Variable process_cwd : string.
Variable process_env : JS.record.

(** When [loadSchema] resolves, [commandCheck] has found a schema path
    too. *)
Lemma loadSchema_resolves_path args v :
  LoadSchema.loadSchema existsSync join resolve fileUrl importModule
    process_cwd (Cli.schema args) (Some (Cli.cwd args)) = inr v →
  ∃ path,
    path ≠ ""
    ∧ match Cli.schema args with
      | Some s =>
          if bool_decide (s ≠ "") then Some s
          else LoadSchema.findSchemaFile existsSync join process_cwd
                 (Some (Cli.cwd args))
      | None =>
          LoadSchema.findSchemaFile existsSync join process_cwd
            (Some (Cli.cwd args))
      end = Some path.
Proof.
  unfold LoadSchema.loadSchema. cbn [default].
  destruct (Cli.schema args) as [s|].
  - destruct (bool_decide_reflect (s ≠ "")) as [Hs|Hs]; [by exists s|].
    destruct (LoadSchema.findSchemaFile _ _ _ _) as [path|]; [|discriminate].
    destruct (bool_decide_reflect (path = "")); [discriminate|].
    by exists path.
  - destruct (LoadSchema.findSchemaFile _ _ _ _) as [path|]; [|discriminate].
    destruct (bool_decide_reflect (path = "")); [discriminate|].
    by exists path.
Qed.

(** X17. When the value [loadSchema] resolves with, if it resolves, has
    the declared type [EnvSchema], [commandCheck] resolves to exit code 0
    or 1, and to 0 exactly when [loadSchema] resolves with a schema on
    which [isEnvValid], run on the environment of the process, returns
    [true]; a schema that is not found, a rejected load and an invalid
    environment all give 1. *)
Theorem commandCheck_exit_code args :
  (∀ v,
     LoadSchema.loadSchema existsSync join resolve fileUrl importModule
       process_cwd (Cli.schema args) (Some (Cli.cwd args)) = inr v →
     is_Some (Check.asEnvSchema v)) →
  ∃ out code,
    Check.commandCheck existsSync join resolve fileUrl importModule
      process_cwd process_env args = Some (out, code)
    ∧ (code = 0 ∨ code = 1)
    ∧ (code = 0
       ↔ ∃ v schema,
           LoadSchema.loadSchema existsSync join resolve fileUrl importModule
             process_cwd (Cli.schema args) (Some (Cli.cwd args)) = inr v
           ∧ Check.asEnvSchema v = Some schema
           ∧ isEnvValid process_env schema ValidateOptions.empty
             = ([], Return true)).
Proof.
  intros Htyped.
  unfold Check.commandCheck, isEnvValid.
  change (ValidateOptions.with_throwOnError ValidateOptions.empty false)
    with (ValidateOptions.mk None (Some false)).
  destruct (LoadSchema.loadSchema existsSync join resolve fileUrl importModule
              process_cwd (Cli.schema args) (Some (Cli.cwd args)))
    as [message|v] eqn:Hload.
  - assert (∀ o : option (list (Check.stream * string) * nat),
              (∃ out, o = Some (out, 1)) →
              ∃ out code, o = Some (out, code) ∧ (code = 0 ∨ code = 1)
                ∧ (code = 0
                   ↔ ∃ (v : LoadSchema.value) (schema : EnvSchema),
                       @inl string LoadSchema.value message = inr v
                       ∧ Check.asEnvSchema v = Some schema
                       ∧ validateEnv process_env schema
                           (ValidateOptions.mk None (Some false))
                         ≫= (λ result, mret (ValidationResult.valid result))
                         = ([], Return true))) as Hone.
    { intros o (out & ->). exists out, 1. split; [done|].
      split; [by right|]. split; [done|]. by intros (v & schema & ? & _). }
    apply Hone. repeat case_match; by eexists.
  - destruct (loadSchema_resolves_path args v Hload) as (path & Hne & ->).
    rewrite (bool_decide_eq_false_2 (path = "")) by done.
    destruct (Htyped v eq_refl) as [schema Hschema]. rewrite Hschema.
    rewrite (validateEnv_nothrow process_env schema
               (ValidateOptions.mk None (Some false))) by done.
    cbn [ValidationResult.valid ValidationResult.errors].
    destruct (bool_decide
                (length (runLoop (optEnv process_env
                                    (ValidateOptions.mk None (Some false)))
                           schema).1 = 0)) eqn:Hvalid.
    + eexists _, 0. split; [reflexivity|].
      split; [by left|]. split; [|done]. intros _.
      exists v, schema. split; [done|split; [done|]].
      rewrite (validateEnv_nothrow process_env schema
                 (ValidateOptions.mk None (Some false))) by done.
      unfold mbind, Eff_bind, bind, ret.
      cbn [ValidationResult.valid app]. by rewrite Hvalid.
    + eexists _, 1. split; [reflexivity|].
      split; [by right|]. split; [done|].
      intros (v' & schema' & [= <-] & Hs' & Hb).
      rewrite Hschema in Hs'. injection Hs' as <-.
      rewrite (validateEnv_nothrow process_env schema
                 (ValidateOptions.mk None (Some false))) in Hb by done.
      unfold mbind, Eff_bind, bind, ret in Hb.
      cbn [ValidationResult.valid app] in Hb.
      rewrite Hvalid in Hb. discriminate.
Qed.

Lemma stderrLines_app (a b : list (Check.stream * string)) :
  Check.stderrLines (a ++ b) = Check.stderrLines a ++ Check.stderrLines b.
Proof. unfold Check.stderrLines. by rewrite List.filter_app, fmap_app. Qed.

Lemma stderrLines_cons_stdout x (l : list (Check.stream * string)) :
  x.1 = Check.Stdout → Check.stderrLines (x :: l) = Check.stderrLines l.
Proof.
  destruct x as [st line]. simpl. intros ->. reflexivity.
Qed.

Lemma stderrLines_printError err :
  Check.stderrLines (Check.printError err)
  = [(Check.error (ValidationError.message err)).2].
Proof.
  unfold Check.printError.
  destruct (ValidationError.description err) as [d|];
    [destruct (bool_decide (d = ""))|];
    (destruct (ValidationError.expected err) as [expected|];
     [destruct (bool_decide (0 < length expected))|]);
    reflexivity.
Qed.

Lemma stderrLines_printErrors (errors : list ValidationError.t) :
  Check.stderrLines (concat (map Check.printError errors))
  = map (λ err, (Check.error (ValidationError.message err)).2) errors.
Proof.
  induction errors as [|err errors IH]; [done|]. cbn [map concat].
  by rewrite stderrLines_app, stderrLines_printError, IH.
Qed.

(** X18. When the loaded schema is not satisfied by the environment of
    the process, [commandCheck] resolves to 1 and what it has written to
    the error stream is one line per violation, with the violation's
    message and in the order of [result.errors], followed by the line
    that counts them; descriptions, allowed values and the banner go to
    the standard output. *)
Theorem commandCheck_stderr args out code v (schema : EnvSchema) result :
  Check.commandCheck existsSync join resolve fileUrl importModule process_cwd
    process_env args = Some (out, code) →
  LoadSchema.loadSchema existsSync join resolve fileUrl importModule
    process_cwd (Cli.schema args) (Some (Cli.cwd args)) = inr v →
  Check.asEnvSchema v = Some schema →
  validateEnv process_env schema (ValidateOptions.mk None (Some false))
  = ([], Return result) →
  ValidationResult.valid result = false →
  code = 1
  ∧ Check.stderrLines out
    = map (λ err, (Check.error (ValidationError.message err)).2)
        (ValidationResult.errors result)
      ++ [(Check.error
             ("Validation failed with "
              +:+ JS.string_of_nat (length (ValidationResult.errors result))
              +:+ " error(s)")).2].
Proof.
  intros Hrun Hload Hschema Hval Hinvalid.
  unfold Check.commandCheck in Hrun.
  destruct (loadSchema_resolves_path args v Hload) as (path & Hne & Hpath).
  rewrite Hpath, Hload, Hschema, Hval, Hinvalid in Hrun.
  rewrite (bool_decide_eq_false_2 (path = "")) in Hrun by done.
  injection Hrun as <- <-. split; [done|].
  rewrite !stderrLines_cons_stdout by reflexivity.
  rewrite !stderrLines_app, stderrLines_printErrors. reflexivity.
Qed.

End CheckFacts.

Lemma commandCheck_exit_code_witness :
  ∃ out code,
    Check.commandCheck LoadSchema.demo_exists LoadSchema.demo_join
      LoadSchema.demo_join LoadSchema.demo_url
      (λ _, inr [("envSchema", LoadSchema.demo_schema)]) "/app" ∅
      (Cli.parseArgs "/app" ["check"]) = Some (out, code)
    ∧ (code = 0 ∨ code = 1)
    ∧ (code = 0
       ↔ ∃ v schema,
           LoadSchema.loadSchema LoadSchema.demo_exists LoadSchema.demo_join
             LoadSchema.demo_join LoadSchema.demo_url
             (λ _, inr [("envSchema", LoadSchema.demo_schema)]) "/app"
             (Cli.schema (Cli.parseArgs "/app" ["check"]))
             (Some (Cli.cwd (Cli.parseArgs "/app" ["check"]))) = inr v
           ∧ Check.asEnvSchema v = Some schema
           ∧ isEnvValid ∅ schema ValidateOptions.empty = ([], Return true)).
Proof.
  apply (commandCheck_exit_code LoadSchema.demo_exists LoadSchema.demo_join
           LoadSchema.demo_join LoadSchema.demo_url
           (λ _, inr [("envSchema", LoadSchema.demo_schema)]) "/app" ∅
           (Cli.parseArgs "/app" ["check"])).
  intros v Hv. vm_compute in Hv. injection Hv as <-.
  eexists. vm_compute. reflexivity.
Defined.

Lemma commandCheck_stderr_witness :
  ∃ out,
    Check.commandCheck LoadSchema.demo_exists LoadSchema.demo_join
      LoadSchema.demo_join LoadSchema.demo_url
      (λ _, inr [("envSchema", LoadSchema.demo_required)]) "/app" ∅
      (Cli.parseArgs "/app" ["check"]) = Some (out, 1)
    ∧ Check.stderrLines out
      = [(Check.error "Missing environment variable: DATABASE_URL").2;
         (Check.error "Validation failed with 1 error(s)").2].
Proof.
  eexists. split; [vm_compute; reflexivity|].
  refine (proj2 (commandCheck_stderr LoadSchema.demo_exists
                   LoadSchema.demo_join LoadSchema.demo_join
                   LoadSchema.demo_url
                   (λ _, inr [("envSchema", LoadSchema.demo_required)])
                   "/app" ∅ (Cli.parseArgs "/app" ["check"]) _ 1
                   LoadSchema.demo_required scenario1_schema
                   (ValidationResult.mk false
                      [missingError "DATABASE_URL"
                         (EnvVarSchema.mk (Some true) None None None None)]
                      {["DATABASE_URL" := None]})
                   _ _ _ _ _));
    vm_compute; reflexivity.
Defined.

(** X19. With no schema path given, or an empty one, and none of the
    eight schema files in the directory, [loadSchema] rejects with the
    message that lists the eight names; with a schema path whose resolved
    file does not exist it rejects with the message naming that file,
    whatever else the directory holds. *)
Theorem loadSchema_missing_file (existsSync : string → bool)
    (join resolve : string → string → string) (fileUrl : string → string)
    (importModule :
       string → LoadSchema.thrown + list (string * LoadSchema.value))
    (process_cwd : string) (cwd : option string) :
  ((∀ name, name ∈ LoadSchema.SCHEMA_FILE_NAMES →
      existsSync (join (default process_cwd cwd) name) = false) →
   LoadSchema.loadSchema existsSync join resolve fileUrl importModule
     process_cwd None cwd
   = inl (LoadSchema.notFoundMessage)
   ∧ LoadSchema.loadSchema existsSync join resolve fileUrl importModule
       process_cwd (Some "") cwd
     = inl (LoadSchema.notFoundMessage))
  ∧ (∀ f, f ≠ "" →
       resolve (default process_cwd cwd) f ≠ "" →
       existsSync (resolve (default process_cwd cwd) f) = false →
       LoadSchema.loadSchema existsSync join resolve fileUrl importModule
         process_cwd (Some f) cwd
       = inl ("Schema file not found: "
              +:+ resolve (default process_cwd cwd) f)).
Proof.
  split.
  - intros Hnone. unfold LoadSchema.loadSchema.
    cbn [bool_decide decide_rel]. 
    assert (LoadSchema.findSchemaFile existsSync join process_cwd
              (Some (default process_cwd cwd)) = None) as Hfind.
    { apply findIn_None. exact Hnone. }
    rewrite (bool_decide_eq_false_2 ("" ≠ "")) by (intros H; by apply H).
    by rewrite Hfind.
  - intros f Hf Hpath Hex. unfold LoadSchema.loadSchema.
    rewrite (bool_decide_eq_true_2 (f ≠ "")) by done.
    rewrite (bool_decide_eq_false_2 (_ = "")) by done.
    by rewrite Hex.
Qed.

Lemma loadSchema_missing_file_witness :
  LoadSchema.loadSchema LoadSchema.demo_exists LoadSchema.demo_join
    LoadSchema.demo_join LoadSchema.demo_url
    (λ _, inr [("envSchema", LoadSchema.demo_schema)]) "/app"
    (Some "config/env.js") None
  = inl ("Schema file not found: "
         +:+ LoadSchema.demo_join (default "/app" None) "config/env.js").
Proof.
  apply (proj2 (loadSchema_missing_file LoadSchema.demo_exists
                  LoadSchema.demo_join LoadSchema.demo_join
                  LoadSchema.demo_url
                  (λ _, inr [("envSchema", LoadSchema.demo_schema)]) "/app"
                  None) "config/env.js").
  - discriminate.
  - discriminate.
  - vm_compute. reflexivity.
Defined.
